(** * A shallow embedding of the chat relay (server/main.py, client/gui.py,
    client/test.py)

    The server is a single-threaded asyncio program.  Its three coroutines
    ([readAll], [broadcast], [handle_client]) and the accept loop of [main]
    are embedded as functions over an explicit [World]: the process-wide
    [clients] list, the sockets (what their next [recv], [sendall] and
    [getpeername] calls will do), and what the process has written so far.
    Python exceptions are values of [exn]; a coroutine that reaches
    [await aio.sleep(0)] stops there and reports where it will resume. *)

From Stdlib Require Import Ascii NArith.
From Equations Require Import Equations.
From stdpp Require Import base decidable option list strings pretty gmap.

Set Default Proof Using "Type".

(** ** Bytes *)

(** A Python [bytes] object. *)
Definition bytes := list ascii.

(** A bytes literal, [b"..."]. *)
Definition B (s : string) : bytes := String.list_ascii_of_string s.
Arguments B s%_string.

(** The delimiter, [b'<EOF>']. *)
Definition EOF : bytes := Eval cbv in B "<EOF>".

(** [data.endswith(suffix)] *)
Definition endswith (data suffix : bytes) : bool :=
  bool_decide (suffix `suffix_of` data).

(** [needle in hay], on [bytes] and on [str] alike: [needle] occurs in
    [hay] as a contiguous run. *)
Fixpoint occurs_in {A} `{EqDecision A} (needle hay : list A) : bool :=
  bool_decide (needle `prefix_of` hay) ||
  match hay with
  | [] => false
  | _ :: hay' => occurs_in needle hay'
  end.

(** ** Exceptions and sockets *)

(** The exception classes the program tells apart.  All of them are
    subclasses of [Exception]; [BlockingIOError], [BrokenPipeError] and
    [ConnectionResetError] are subclasses of [OSError]. *)
Inductive exn :=
| BlockingIOError
| BrokenPipeError
| ConnectionResetError
| OSError
| ValueError.

#[global] Instance exn_eq_dec : EqDecision exn.
Proof. solve_decision. Defined.

(** A socket object.  Python compares sockets by identity, so a socket is
    its identity. *)
Definition sock := nat.

(** The textual form of a peer address, [str(addr)]. *)
Definition address := bytes.

(** What one call of [recv] finds on a socket: bytes that have arrived
    ([Data []] is the orderly close of the peer: [recv] returns [b'']), or
    an exception. *)
Inductive recv_event :=
| Data (pending : bytes)
| RecvRaises (e : exn).

(** [sock.recv(bufsize)] on the queue of events of that socket.  At most
    [bufsize] bytes are returned and the rest stays pending; an empty queue
    is a non-blocking socket with nothing to read. *)
Definition recv (bufsize : nat) (q : list recv_event)
  : (exn + bytes) * list recv_event :=
  match q with
  | [] => (inl BlockingIOError, [])
  | RecvRaises e :: q' => (inl e, q')
  | Data pending :: q' =>
      if decide (length pending ≤ bufsize) then (inr pending, q')
      else (inr (take bufsize pending), Data (drop bufsize pending) :: q')
  end.

(** The work left in a queue: every [recv] on a non-empty queue lowers it. *)
Definition weight (q : list recv_event) : nat :=
  foldr (λ ev n, match ev with Data b => S (length b) | RecvRaises _ => 1 end + n) 0 q.

Lemma recv_weight bufsize q r q' :
  0 < bufsize → q ≠ [] → recv bufsize q = (r, q') → weight q' < weight q.
Proof.
  intros Hb Hq Hr. destruct q as [|[pending|e] q0]; [congruence| |]; clear Hq.
  - simpl in Hr. case_decide; simplify_eq; simpl; [lia|].
    rewrite length_drop. lia.
  - simpl in Hr. simplify_eq. simpl. lia.
Qed.

(** ** readAll *)

(** Keeps the equation [x = y] while matching on [x]. *)
Definition inspect {A : Type} (x : A) : {y : A | x = y} := exist _ x eq_refl.

(** What [readAll] returns, [(data, connected)], with [None] for Python's
    [None]; next to it whether the [except Exception] branch printed. *)
Record read_result := ReadResult {
  rr_data : option bytes;
  rr_conn : bool;
  rr_printed : option exn;
}.

(** The [while True] loop of [readAll], started with the bytes accumulated
    so far in the local variable [data].  It ends at the first of: an empty
    chunk, [data] ending with the delimiter, or an exception of [recv]. *)
Equations? readAll_loop (q : list recv_event) (data : bytes)
  : read_result * list recv_event by wf (weight q) lt :=
readAll_loop [] data := (ReadResult None true None, []);
readAll_loop (ev :: q0) data with inspect (recv 1024 (ev :: q0)) := {
  | exist _ (inl BlockingIOError, q') _ => (ReadResult None true None, q')
  | exist _ (inl e, q') _ => (ReadResult None false (Some e), q')
  | exist _ (inr chunk, q') _ =>
      let data := data ++ chunk in
      if decide (chunk = []) then (ReadResult (Some data) false None, q')
      else if endswith data EOF then (ReadResult (Some data) true None, q')
      else readAll_loop q' data }.
Proof.
  eapply (recv_weight 1024); [lia|done|eauto].
Qed.

(** ** The world of the server process *)

(** What one call of [accept] on the listening socket finds. *)
Inductive accept_event :=
| Accepted (client_socket : sock) (addr : address)
| AcceptRaises (e : exn).

(** The lines the server prints, one constructor per [print] of main.py. *)
Inductive log_line :=
| LogReadError (e : exn)                       (* Error while reading messages: {e} *)
| LogSendDisconnected (peername : address)     (* Client {peername} disconnected. *)
| LogBroadcastError (peername : address) (e : exn)   (* Error while broadCasting ... *)
| LogReceived (add : address) (data : bytes)   (* Received from {add}: {data} *)
| LogClientDisconnected (add : address)        (* client {add} disconnected. *)
| LogLength (n : nat)                          (* length of clients: {n} *)
| LogConnection (addr : address)               (* Connection from {addr} ... *)
| LogMainloopError (e : exn).                  (* Error in the mainloop: {e} *)

(** One call of [sendall]: the socket, the bytes, and how the call ended
    ([None]: it returned, the bytes are on their way to the peer). *)
Record send_call := SendCall {
  sc_to : sock;
  sc_bytes : bytes;
  sc_raised : option exn;
}.

#[global] Instance send_call_eq_dec : EqDecision send_call.
Proof. solve_decision. Defined.

Record World := mkWorld {
  clients : list sock;                 (* the global list [clients] *)
  inq : gmap sock (list recv_event);   (* per socket: what [recv] will find *)
  outq : gmap sock (list (option exn));(* per socket: how the next [sendall]s end *)
  peer : gmap sock address;            (* per connected socket: [str(getpeername())] *)
  closed : gset sock;                  (* sockets on which [close] was called *)
  backlog : list accept_event;         (* the listening socket: what [accept] will find *)
  sent : list send_call;               (* every [sendall] so far, oldest first *)
  stdout : list log_line;              (* every line printed so far, oldest first *)
}.

Definition set_clients (l : list sock) (w : World) : World :=
  mkWorld l (inq w) (outq w) (peer w) (closed w) (backlog w) (sent w) (stdout w).
Definition set_inq (m : gmap sock (list recv_event)) (w : World) : World :=
  mkWorld (clients w) m (outq w) (peer w) (closed w) (backlog w) (sent w) (stdout w).
Definition set_backlog (b : list accept_event) (w : World) : World :=
  mkWorld (clients w) (inq w) (outq w) (peer w) (closed w) b (sent w) (stdout w).

(** [print(...)] *)
Definition print (line : log_line) (w : World) : World :=
  mkWorld (clients w) (inq w) (outq w) (peer w) (closed w) (backlog w) (sent w)
          (stdout w ++ [line]).

(** [client_socket.close()] *)
Definition close (client_socket : sock) (w : World) : World :=
  mkWorld (clients w) (inq w) (outq w) (peer w) ({[client_socket]} ∪ closed w)
          (backlog w) (sent w) (stdout w).

(** [s.getpeername()], as its textual form.  It raises [OSError] on a closed
    socket and on a socket that is not (or no longer) connected. *)
Definition getpeername (s : sock) (w : World) : exn + address :=
  if decide (s ∈ closed w) then inl OSError
  else match peer w !! s with
       | Some a => inr a
       | None => inl OSError
       end.

(** How the next [sendall] on [client] will end: [OSError] on a closed
    socket, otherwise what the socket has in store, and success when nothing
    is in store. *)
Definition send_outcome (w : World) (client : sock) : option exn :=
  if decide (client ∈ closed w) then Some OSError
  else match outq w !! client with
       | Some (o :: _) => o
       | _ => None
       end.

(** [client.sendall(message)]: the call is recorded with its outcome, which
    is also returned ([Some e]: the call raised [e]). *)
Definition sendall (client : sock) (message : bytes) (w : World)
  : World * option exn :=
  let o := send_outcome w client in
  (mkWorld (clients w) (inq w) (alter (drop 1) client (outq w)) (peer w)
           (closed w) (backlog w) (sent w ++ [SendCall client message o])
           (stdout w),
   o).

(** [l.remove(x)] of a Python list: the first occurrence of [x] is taken
    out; [None] stands for the [ValueError] raised when there is none. *)
Fixpoint list_remove (x : sock) (l : list sock) : option (list sock) :=
  match l with
  | [] => None
  | y :: l' => if decide (x = y) then Some l' else (y ::.) <$> list_remove x l'
  end.

(** [readAll(client_socket)]: [data] starts empty at every call. *)
Definition readAll (client_socket : sock) (w : World) : read_result * World :=
  let q := if decide (client_socket ∈ closed w) then [RecvRaises OSError]
           else default [] (inq w !! client_socket) in
  let '(r, q') := readAll_loop q [] in
  let w := set_inq (<[client_socket := q']> (inq w)) w in
  (r, match rr_printed r with
      | Some e => print (LogReadError e) w
      | None => w
      end).

(** ** Coroutines *)

(** A coroutine of the server, at a point where the event loop can start
    or resume it. *)
Inductive task :=
| Main                                   (* [main], at the top of its accept loop *)
| HandleClient (client_socket : sock) (add : address)  (* [handle_client], not started *)
| HandleLoop (client_socket : sock) (add : address) (connected : bool)
                                         (* [handle_client], after its [await aio.sleep(0)] *)
| Broadcast (message : bytes) (sender : sock)          (* [broadcast], not started *)
| BroadcastLoop (message : bytes) (sender : sock) (rest : list sock).
                                         (* [broadcast], after the [await] of its
                                            [except BlockingIOError]; [rest] is what is
                                            left of [clients[:]] *)

(** How a coroutine stops running: it returned, it raised, or it reached an
    [await aio.sleep(0)] and waits to be resumed. *)
Inductive outcome :=
| Finished
| Raised (e : exn)
| Yielded (resume : task).

(** The [for client in clients[:]] loop of [broadcast]; [message] already
    carries the sender's address. *)
Fixpoint broadcast_loop (message : bytes) (sender : sock) (snapshot : list sock)
    (w : World) : World * outcome :=
  match snapshot with
  | [] => (w, Finished)
  | client :: rest =>
      if decide (client = sender) then broadcast_loop message sender rest w
      else
        let '(w, r) := sendall client message w in
        match r with
        | None => broadcast_loop message sender rest w
        | Some BlockingIOError => (w, Yielded (BroadcastLoop message sender rest))
        | Some e =>
            (* [except BrokenPipeError] and [except Exception] differ in the
               line they print only *)
            match getpeername client w with
            | inl e' => (w, Raised e')
            | inr peername =>
                let w := print (if decide (e = BrokenPipeError)
                                then LogSendDisconnected peername
                                else LogBroadcastError peername e) w in
                match list_remove client (clients w) with
                | None => (w, Raised ValueError)
                | Some l => broadcast_loop message sender rest (set_clients l w)
                end
            end
        end
  end.

(** [broadcast(message, sender)] up to its first [await] *)
Definition broadcast (message : bytes) (sender : sock) (w : World)
  : World * outcome :=
  if decide (length (clients w) < 2) then (w, Finished)
  else match getpeername sender w with
       | inl e => (w, Raised e)
       | inr peername =>
           broadcast_loop (peername ++ B ": " ++ message) sender (clients w) w
       end.

(** [handle_client] from the test of its [while connected]: one turn of the
    loop up to [await aio.sleep(0)], or the lines after the loop.  Nothing in
    the [try] block can raise ([readAll] catches every [Exception]), so its
    [except] branch is never taken. *)
Definition handle_loop (client_socket : sock) (add : address) (connected : bool)
    (w : World) : World * list task * outcome :=
  if connected then
    let '(r, w) := readAll client_socket w in
    let connected := if rr_conn r then connected else false in
    match rr_data r with
    | Some ((_ :: _) as data) =>
        (print (LogReceived add data) w, [Broadcast data client_socket],
         Yielded (HandleLoop client_socket add connected))
    | _ => (w, [], Yielded (HandleLoop client_socket add connected))
    end
  else
    let w := print (LogClientDisconnected add) w in
    let w := print (LogLength (length (clients w))) w in
    match list_remove client_socket (clients w) with
    | None => (w, [], Raised ValueError)
    | Some l => (close client_socket (set_clients l w), [], Finished)
    end.

(** [handle_client(client_socket, add)] from its first line.
    [client_socket.setblocking(False)] raises [OSError] on a socket that is
    already closed; it is outside the [try], so the coroutine ends there,
    before the socket is appended to [clients]. *)
Definition handle_client (client_socket : sock) (add : address) (w : World)
  : World * list task * outcome :=
  if decide (client_socket ∈ closed w) then (w, [], Raised OSError)
  else handle_loop client_socket add true
                   (set_clients (clients w ++ [client_socket]) w).

(** The accept loop of [main], after [bind] and [listen]: it goes round
    without suspending for as long as [accept] returns connections. *)
Fixpoint main_loop (pending : list accept_event) (w : World)
  : World * list task * outcome :=
  match pending with
  | [] => (set_backlog [] w, [], Yielded Main)
  | Accepted client_socket addr :: pending =>
      let w := print (LogConnection addr) w in
      let '(w, spawned, out) := main_loop pending w in
      (w, HandleClient client_socket addr :: spawned, out)
  | AcceptRaises BlockingIOError :: pending =>
      (set_backlog pending w, [], Yielded Main)
  | AcceptRaises e :: pending =>
      (print (LogMainloopError e) (set_backlog pending w), [], Finished)
  end.

(** One coroutine run from where it stands to where it next stops: the new
    world, the tasks it created with [aio.create_task] (oldest first), and
    how it stopped. *)
Definition segment (t : task) (w : World) : World * list task * outcome :=
  match t with
  | Main => main_loop (backlog w) w
  | HandleClient client_socket add => handle_client client_socket add w
  | HandleLoop client_socket add connected =>
      handle_loop client_socket add connected w
  | Broadcast message sender =>
      let '(w, out) := broadcast message sender w in (w, [], out)
  | BroadcastLoop message sender rest =>
      let '(w, out) := broadcast_loop message sender rest w in (w, [], out)
  end.

(** A coroutine run with nothing else scheduled in between: it is resumed
    at once, at most [n] times; the tasks it creates are collected, not run. *)
Fixpoint alone (n : nat) (t : task) (w : World) : World * list task * outcome :=
  let '(w', spawned, out) := segment t w in
  match out, n with
  | Yielded resume, S n' =>
      let '(w'', spawned', out') := alone n' resume w' in
      (w'', spawned ++ spawned', out')
  | _, _ => (w', spawned, out)
  end.

(** ** The event loop *)

(** The event loop of [aio.run(main())]: its queue of ready coroutines, in
    the order they will run.  [create_task] and [await aio.sleep(0)] both
    put a coroutine at the back of the queue. *)
Record Loop := mkLoop {
  world : World;
  ready : list task;
  alive : bool;       (* [false] once [main] has returned: the loop is
                         in its last iteration *)
}.

(** The event loop runs the coroutine at the front of the queue.

    [main] is the coroutine [aio.run] starts with, and every other
    coroutine is created by it or by one it created; a coroutine that
    creates tasks and then waits is queued behind them.  So [main] is the
    last coroutine of each iteration of the loop, and what is in the queue
    when it runs is the next iteration.

    When [main] returns, its task asks the loop to stop ([call_soon] of the
    callback of [run_until_complete]), and the loop stops at the end of the
    iteration in which that callback runs: the next one.  The coroutines
    queued when [main] returns, the tasks it created in its last turn
    among them, therefore each still run once, up to their next [await] or
    their end.  What they create and where they wait no longer matters:
    [aio.run] then cancels every task that is left, which raises
    [CancelledError] at the [await] a coroutine waits at ([except
    Exception] does not catch it) and keeps a coroutine that has not
    started from starting, so that no further line of the program runs. *)
Definition step (l : Loop) : Loop :=
  if alive l then
    match ready l with
    | [] => l
    | t :: ts =>
        let '(w, spawned, out) := segment t (world l) in
        match out with
        | Yielded resume => mkLoop w (ts ++ spawned ++ [resume]) true
        | Finished =>
            match t with
            | Main => mkLoop w (ts ++ spawned) false
            | _ => mkLoop w (ts ++ spawned) true
            end
        | Raised _ => mkLoop w (ts ++ spawned) true
        end
    end
  else
    match ready l with
    | [] => l
    | t :: ts =>
        let '(w, _, _) := segment t (world l) in mkLoop w ts false
    end.

Fixpoint steps (n : nat) (l : Loop) : Loop :=
  match n with
  | 0 => l
  | S n => steps n (step l)
  end.

(** ** The client (client/gui.py) *)

(** A Python [str]: its code points. *)
Definition text := list N.

(** A [str] literal of ASCII characters. *)
Definition T (s : string) : text := N_of_ascii <$> String.list_ascii_of_string s.
Arguments T s%_string.

(** The delimiter as the client writes it, ['<EOF>']. *)
Definition EOF_text : text := Eval cbv in T "<EOF>".

(** ['\n'] *)
Definition newline : text := [10%N].

(** [s.encode('utf-8')] for one code point; [None] stands for the
    [UnicodeEncodeError] raised on a surrogate. *)
Definition utf8_encode_char (cp : N) : option bytes :=
  if (cp <? 0x80)%N then Some [ascii_of_N cp]
  else if (cp <? 0x800)%N then
    Some [ascii_of_N (0xC0 + cp / 64); ascii_of_N (0x80 + cp mod 64)]
  else if (cp <? 0x10000)%N then
    if ((0xD800 <=? cp) && (cp <=? 0xDFFF))%N then None
    else Some [ascii_of_N (0xE0 + cp / 4096);
               ascii_of_N (0x80 + (cp / 64) mod 64);
               ascii_of_N (0x80 + cp mod 64)]
  else if (cp <? 0x110000)%N then
    Some [ascii_of_N (0xF0 + cp / 262144);
          ascii_of_N (0x80 + (cp / 4096) mod 64);
          ascii_of_N (0x80 + (cp / 64) mod 64);
          ascii_of_N (0x80 + cp mod 64)]
  else None.

(** [s.encode('utf-8')] *)
Fixpoint utf8_encode (s : text) : option bytes :=
  match s with
  | [] => Some []
  | cp :: s' =>
      b ← utf8_encode_char cp; bs ← utf8_encode s'; Some (b ++ bs)
  end.

(** The payload bits of a continuation byte [10xxxxxx]. *)
Definition continuation (b : ascii) : option N :=
  let n := N_of_ascii b in
  if ((0x80 <=? n) && (n <? 0xC0))%N then Some (n - 0x80)%N else None.

(** [b.decode('utf-8')]; [None] stands for the [UnicodeDecodeError] raised
    on bytes that are not the encoding of a [str]. *)
Fixpoint utf8_decode (bs : bytes) : option text :=
  match bs with
  | [] => Some []
  | b0 :: bs1 =>
      let n0 := N_of_ascii b0 in
      if (n0 <? 0x80)%N then (n0 ::.) <$> utf8_decode bs1
      else if (n0 <? 0xC2)%N then None
      else if (n0 <? 0xE0)%N then
        match bs1 with
        | b1 :: bs2 =>
            c1 ← continuation b1;
            (((n0 - 0xC0) * 64 + c1)%N ::.) <$> utf8_decode bs2
        | _ => None
        end
      else if (n0 <? 0xF0)%N then
        match bs1 with
        | b1 :: b2 :: bs3 =>
            c1 ← continuation b1; c2 ← continuation b2;
            let cp := (((n0 - 0xE0) * 64 + c1) * 64 + c2)%N in
            if ((cp <? 0x800) || ((0xD800 <=? cp) && (cp <=? 0xDFFF)))%N
            then None
            else (cp ::.) <$> utf8_decode bs3
        | _ => None
        end
      else if (n0 <? 0xF5)%N then
        match bs1 with
        | b1 :: b2 :: b3 :: bs4 =>
            c1 ← continuation b1; c2 ← continuation b2; c3 ← continuation b3;
            let cp := ((((n0 - 0xF0) * 64 + c1) * 64 + c2) * 64 + c3)%N in
            if ((cp <? 0x10000) || (0x110000 <=? cp))%N then None
            else (cp ::.) <$> utf8_decode bs4
        | _ => None
        end
      else None
  end.

(** [s.replace(old, new)] for a non-empty [old]: the occurrences of [old]
    are found from left to right and do not overlap.  [skip] counts the
    characters of an occurrence still to pass over. *)
Fixpoint replace_from {A} `{EqDecision A} (skip : nat) (old new s : list A)
  : list A :=
  match s with
  | [] => []
  | c :: s' =>
      match skip with
      | S k => replace_from k old new s'
      | 0 =>
          if bool_decide (old `prefix_of` s)
          then new ++ replace_from (length old - 1) old new s'
          else c :: replace_from 0 old new s'
      end
  end.

Definition replace {A} `{EqDecision A} (old new s : list A) : list A :=
  replace_from 0 old new s.

(** The part of [Window] the two methods work on: the entry box, the text
    area, and whether the event [running] is set. *)
Record Window := mkWindow {
  msg_box : text;
  msg_display : text;
  running : bool;
}.

(** [Window.send_message]: the window afterwards and the bytes handed to
    [client_socket.send], if the method got that far.  [send_raises] tells
    whether that call raises.  Every exception ends in the [except] branch,
    which prints and leaves the window as it was. *)
Definition send_message (send_raises : bool) (win : Window)
  : Window * option bytes :=
  let message := msg_box win in
  if decide (message = []) then (win, None)
  else
    match utf8_encode (message ++ EOF_text) with
    | None => (win, None)
    | Some msg =>
        if send_raises then (win, Some msg)
        else (mkWindow [] (msg_display win ++ T "You: " ++ message ++ newline)
                       (running win),
              Some msg)
    end.

(** What one call of [recv] gives the client: bytes, or a socket error
    with its [errno]. *)
Inductive client_recv :=
| Received (msg : bytes)
| SocketError (errno : N).

(** One turn of the loop of [Window.read]: the window afterwards and
    whether the loop goes on.  [BlockingIOError] is a socket error too, so
    it is the first [except] branch that handles it. *)
Definition read_turn (r : client_recv) (win : Window) : Window * bool :=
  match r with
  | Received [] => (mkWindow (msg_box win) (msg_display win) true, false)
  | Received msg =>
      match utf8_decode msg with
      | Some s =>
          (mkWindow (msg_box win)
                    (msg_display win ++ replace EOF_text [] s ++ newline)
                    (running win),
           true)
      | None => (win, true)
      end
  | SocketError errno =>
      if decide (errno = 10054%N)
      then (mkWindow (msg_box win) (msg_display win) true, false)
      else (win, true)
  end.

(** The loop of [Window.read] over what the successive calls of [recv]
    give: it is left when [running] is set and at a [break]; when the list
    is used up, the coroutine has not been resumed again. *)
Fixpoint read (events : list client_recv) (win : Window) : Window :=
  if running win then win
  else match events with
       | [] => win
       | r :: events =>
           let '(win, go_on) := read_turn r win in
           if go_on then read events win else win
       end.

(** ** The test client (client/test.py) *)

(** [f"Message no {i}<EOF>".encode()] *)
Definition test_message (i : nat) : bytes :=
  B "Message no " ++ B (pretty i) ++ EOF.

(** The lines [main] of the test client prints. *)
Inductive test_line :=
| LogRetrying                 (* Socket is currently blocking, retrying... *)
| LogTestError (e : exn).     (* An error occurred: {e} *)

(** What a run of the test client does: the calls of [sendall] with how
    each ended, the [read_data] tasks created, the lines printed, and
    whether the socket was closed. *)
Record TestRun := mkTestRun {
  tr_calls : list (bytes * option exn);
  tr_readers : nat;
  tr_printed : list test_line;
  tr_closed : bool;
}.

(** The [while i < 10] loop of [main]; [outcomes] tells how the successive
    calls of [sendall] end ([None], and past the end of the list: the call
    returns).  [i] goes up in the [finally] clause, on every way out of the
    [try]. *)
Equations? test_loop (i : nat) (outcomes : list (option exn)) (run : TestRun)
  : TestRun by wf (10 - i) lt :=
test_loop i outcomes run with decide (i < 10) := {
  | right _ => run
  | left _ with default None (head outcomes) := {
    | None =>
        (* [create_task(read_data())], [await aio.sleep(2)] *)
        test_loop (S i) (tail outcomes)
          (mkTestRun (tr_calls run ++ [(test_message i, None)])
                     (S (tr_readers run)) (tr_printed run) (tr_closed run))
    | Some BlockingIOError =>
        test_loop (S i) (tail outcomes)
          (mkTestRun (tr_calls run ++ [(test_message i, Some BlockingIOError)])
                     (tr_readers run) (tr_printed run ++ [LogRetrying])
                     (tr_closed run))
    | Some e =>
        (* [break] *)
        mkTestRun (tr_calls run ++ [(test_message i, Some e)])
                  (tr_readers run) (tr_printed run ++ [LogTestError e])
                  (tr_closed run) } }.
Proof.
  all: lia.
Qed.

(** [main] of the test client, from [i = 0] to [client.close()]. *)
Definition test_main (outcomes : list (option exn)) : TestRun :=
  let run := test_loop 0 outcomes (mkTestRun [] 0 [] false) in
  mkTestRun (tr_calls run) (tr_readers run) (tr_printed run) true.

(** ** Vocabulary of the statements *)

(** A [sendall] that ended in one of the two branches of [broadcast] that
    take the client out of [clients]: anything but success and
    [BlockingIOError]. *)
Definition hard_failure (o : option exn) : bool :=
  match o with
  | None | Some BlockingIOError => false
  | Some _ => true
  end.

(** [c] is a recipient of a broadcast from [sender] whose next [sendall]
    fails for good. *)
Definition dropped (w : World) (sender c : sock) : Prop :=
  c ≠ sender ∧ hard_failure (send_outcome w c) = true.

#[global] Instance dropped_dec w sender c : Decision (dropped w sender c).
Proof. unfold dropped. apply _. Defined.

(** [getpeername] answers on [c]: the line an [except] branch of
    [broadcast] prints can be built. *)
Definition can_log (w : World) (c : sock) : bool :=
  match getpeername c w with
  | inr _ => true
  | inl _ => false
  end.

(** The calls of [sendall] on socket [c] among [calls]. *)
Definition calls_to (c : sock) (calls : list send_call) : list send_call :=
  filter (λ call, sc_to call = c) calls.

(** What has reached the peer of socket [c] whole through [calls]: the
    bytes of the calls that returned.  A call of [sendall] that raised may
    have put a part of its bytes on the wire before it did (there is no
    telling how much); such a part is not counted here, so that [received]
    is what the peer got for certain, and an empty [received] does not say
    that nothing arrived. *)
Definition received (c : sock) (calls : list send_call) : list bytes :=
  sc_bytes <$> filter (λ call, sc_raised call = None) (calls_to c calls).

(** The messages handed to [broadcast] by the tasks a coroutine created. *)
Definition messages_of (spawned : list task) : list bytes :=
  omap (λ t, match t with Broadcast message _ => Some message | _ => None end)
       spawned.

(** A Unicode scalar value: a code point that is not a surrogate. *)
Definition scalar (cp : N) : Prop :=
  (cp < 0xD800 ∨ 0xDFFF < cp < 0x110000)%N.

#[global] Instance scalar_dec cp : Decision (scalar cp).
Proof. unfold scalar. apply _. Defined.

(** The sockets of the handlers that are created but have not run yet,
    and the sockets still to be accepted. *)
Definition waiting (ts : list task) : list sock :=
  omap (λ t, match t with HandleClient s _ => Some s | _ => None end) ts.
Definition arriving (pending : list accept_event) : list sock :=
  omap (λ ev, match ev with Accepted s _ => Some s | _ => None end) pending.

(** No socket is known twice: [accept] returns a new socket object each
    time, and a socket enters [clients] once, when its handler starts. *)
Definition fresh_sockets (l : Loop) : Prop :=
  NoDup (clients (world l) ++ waiting (ready l) ++
         arriving (backlog (world l))).

(** How the [j]-th call of [sendall] ends. *)
Definition outcome_of (outcomes : list (option exn)) (j : nat) : option exn :=
  default None (outcomes !! j).


(** ** Three connections *)

Definition alice : sock := 1.
Definition bob : sock := 2.
Definition carol : sock := 3.

Definition peers : gmap sock address :=
  <[alice := B "('10.0.0.1', 50001)"]>
  (<[bob := B "('10.0.0.2', 50002)"]>
  (<[carol := B "('10.0.0.3', 50003)"]> ∅)).

(** The three connections registered, nothing sent or printed yet; [reads]
    and [sends] say what the sockets have in store. *)
Definition room (reads : gmap sock (list recv_event))
    (sends : gmap sock (list (option exn))) : World :=
  mkWorld [alice; bob; carol] reads sends peers ∅ [] [] [].

(** * Properties *)

(** ** Bytes and the delimiter *)

Lemma occurs_in_spec {A} `{EqDecision A} (needle hay : list A) :
  occurs_in needle hay = true ↔ ∃ l r, hay = l ++ needle ++ r.
Proof.
  induction hay as [|c hay IH]; simpl.
  - rewrite orb_false_r, bool_decide_eq_true. split.
    + intros [r ->]. by exists [], r.
    + intros (l & r & H). symmetry in H.
      apply app_eq_nil in H as [-> H]. apply app_eq_nil in H as [-> ->].
      by exists [].
  - rewrite orb_true_iff, bool_decide_eq_true, IH. split.
    + intros [[r ->]|(l & r & ->)]; [by exists [], r|by exists (c :: l), r].
    + intros (l & r & H). destruct l as [|c' l]; simpl in H.
      * left. by exists r.
      * right. exists l, r. by simplify_eq.
Qed.

Lemma endswith_spec data suffix :
  endswith data suffix = true ↔ ∃ k, data = k ++ suffix.
Proof. unfold endswith. by rewrite bool_decide_eq_true. Qed.

Lemma endswith_app data suffix : endswith (data ++ suffix) suffix = true.
Proof. apply endswith_spec. by exists data. Qed.

(** The delimiter's last byte is none of its first four, so an occurrence
    of the delimiter cannot start inside a delimiter-free payload and end
    inside the delimiter that follows it. *)
Lemma frame_prefix_complete p data tl :
  occurs_in EOF p = false →
  data ++ tl = p ++ EOF →
  endswith data EOF = true →
  tl = [].
Proof.
  intros Hp Heq [k ->]%endswith_spec.
  destruct tl as [|t tl]; [done|exfalso].
  assert (Hlen : length k + length (t :: tl) = length p).
  { apply (f_equal length) in Heq. rewrite !length_app in Heq.
    change (length EOF) with 5 in Heq. lia. }
  destruct (decide (length k + 5 ≤ length p)) as [Hle|Hgt].
  - (* the occurrence lies inside the payload *)
    assert (occurs_in EOF p = true) as Hin; [|congruence].
    apply occurs_in_spec.
    apply (f_equal (take (length p))) in Heq.
    rewrite take_app_length, <- (assoc_L (++)) in Heq.
    rewrite take_app_ge in Heq by lia.
    rewrite take_app_ge in Heq by (change (length EOF) with 5; lia).
    eexists k, _. symmetry. exact Heq.
  - (* the occurrence would end inside the closing delimiter *)
    apply (f_equal (λ l, l !! (length k + 4))) in Heq. simpl in Heq.
    rewrite <- (assoc_L (++)) in Heq.
    rewrite lookup_app_r in Heq by lia.
    replace (length k + 4 - length k) with 4 in Heq by lia.
    rewrite (lookup_app_r p) in Heq by (simpl in Hlen; lia).
    simpl in Hlen.
    destruct (length k + 4 - length p) as [|[|[|[|n]]]] eqn:Hj;
      simpl in Heq; try discriminate; lia.
Qed.

(** ** readAll *)

(** One turn of the [while True] loop of [readAll]. *)
Lemma readAll_loop_turn q data :
  q ≠ [] →
  readAll_loop q data =
  match recv 1024 q with
  | (inl BlockingIOError, q') => (ReadResult None true None, q')
  | (inl e, q') => (ReadResult None false (Some e), q')
  | (inr chunk, q') =>
      if decide (chunk = []) then (ReadResult (Some (data ++ chunk)) false None, q')
      else if endswith (data ++ chunk) EOF
           then (ReadResult (Some (data ++ chunk)) true None, q')
           else readAll_loop q' (data ++ chunk)
  end.
Proof.
  destruct q as [|ev q0]; [done|intros _].
  rewrite readAll_loop_equation_2.
  change (recv 1024 (ev :: q0)) with (proj1_sig (inspect (recv 1024 (ev :: q0)))) at 2.
  generalize (inspect (recv 1024 (ev :: q0))).
  intros [[[[]|chunk] q'] Hr]; simpl; reflexivity.
Qed.

Lemma weight_app q1 q2 : weight (q1 ++ q2) = weight q1 + weight q2.
Proof. induction q1 as [|[] q1 IH]; simpl; lia. Qed.

(** Chunks of one frame that are all there to be read are put together
    again by one call, wherever the chunk boundaries fall and however
    [recv] cuts chunks longer than its buffer. *)
Lemma readAll_loop_frame p :
  occurs_in EOF p = false →
  ∀ n chunks data rest,
    weight (Data <$> chunks) ≤ n →
    Forall (λ c, c ≠ []) chunks →
    chunks ≠ [] →
    data ++ concat chunks = p ++ EOF →
    readAll_loop ((Data <$> chunks) ++ rest) data =
    (ReadResult (Some (p ++ EOF)) true None, rest).
Proof.
  intros Hp n. induction n as [n IH] using lt_wf_ind.
  intros [|c cs] data rest Hw Hne Hnil Hcat; [done|clear Hnil].
  apply Forall_cons in Hne as [Hc Hcs]. simpl in Hw, Hcat.
  rewrite readAll_loop_turn by done. simpl.
  assert (Hdone : ∀ chunk tl, data ++ chunk ++ tl = p ++ EOF →
            endswith (data ++ chunk) EOF = true → tl = [] ∧ data ++ chunk = p ++ EOF).
  { intros chunk tl Heq He. rewrite (assoc_L (++)) in Heq.
    pose proof (frame_prefix_complete _ _ _ Hp Heq He) as ->.
    by rewrite (right_id_L [] (++)) in Heq. }
  case_decide as Hlen.
  - rewrite decide_False by done.
    destruct (endswith (data ++ c) EOF) eqn:He.
    + destruct (Hdone c (concat cs)) as [Hcs' ->]; [done..|].
      destruct cs as [|c' cs]; [done|].
      apply Forall_cons in Hcs as [Hc' _]. by destruct c'.
    + destruct cs as [|c' cs].
      { simpl in Hcat. rewrite (right_id_L [] (++)) in Hcat.
        rewrite Hcat, endswith_app in He. done. }
      apply (IH (weight (Data <$> c' :: cs))); [unfold fmap in *; simpl in *; lia|done..|].
      by rewrite <- (assoc_L (++)).
  - assert (take 1024 c ≠ []) as Ht.
    { intros Ht%(f_equal length). rewrite length_take in Ht.
      change (length []) with 0 in Ht. lia. }
    assert (drop 1024 c ≠ []) as Hd.
    { intros Hd%(f_equal length). rewrite length_drop in Hd.
      change (length []) with 0 in Hd. lia. }
    rewrite decide_False by done.
    assert (data ++ take 1024 c ++ concat (drop 1024 c :: cs) = p ++ EOF) as Hcat'.
    { simpl. by rewrite (assoc_L (++) (take _ _)), take_drop. }
    destruct (endswith (data ++ take 1024 c) EOF) eqn:He.
    + destruct (Hdone _ _ Hcat' He) as [Hcs' _]. simpl in Hcs'.
      by apply app_eq_nil in Hcs' as [? _].
    + apply IH with (m := weight (Data <$> drop 1024 c :: cs))
                    (chunks := drop 1024 c :: cs).
      * simpl. rewrite length_drop. lia.
      * done.
      * by apply Forall_cons.
      * done.
      * by rewrite <- (assoc_L (++)).
Qed.

Lemma not_occurs_app_l (needle l r : bytes) :
  occurs_in needle (l ++ r) = false → endswith l needle = false.
Proof.
  intros Hin. destruct (endswith l needle) eqn:He; [|done].
  apply endswith_spec in He as [k ->].
  assert (occurs_in needle ((k ++ needle) ++ r) = true) as Hin'; [|congruence].
  apply occurs_in_spec. exists k, r. by rewrite (assoc_L (++)).
Qed.


(** ** The list of clients *)

Lemma list_remove_None x l : x ∉ l → list_remove x l = None.
Proof.
  induction l as [|y l IH]; [done|].
  intros [Hxy Hl]%not_elem_of_cons. simpl.
  rewrite decide_False by done. by rewrite IH.
Qed.

Lemma list_remove_Some x l :
  x ∈ l → ∃ l1 l2, l = l1 ++ (x :: l2) ∧ (x ∉ l1) ∧ list_remove x l = Some (l1 ++ l2).
Proof.
  induction l as [|y l IH]; intros Hx.
  { by apply elem_of_nil in Hx. }
  simpl. destruct (decide (x = y)) as [->|Hxy].
  - exists [], l. split_and!; [done|apply not_elem_of_nil|done].
  - apply elem_of_cons in Hx as [?|Hx]; [done|].
    destruct (IH Hx) as (l1 & l2 & -> & Hl1 & ->).
    exists (y :: l1), l2. split_and!; [done| |done].
    apply not_elem_of_cons. done.
Qed.

Lemma filter_ne_absent (x : sock) (l : list sock) : x ∉ l → filter (λ y, y ≠ x) l = l.
Proof.
  induction l as [|y l IH]; [done|].
  intros [Hxy Hl]%not_elem_of_cons.
  rewrite filter_cons_True by done. by rewrite IH.
Qed.

(** In a list without duplicates [remove] leaves the other members. *)
Lemma list_remove_NoDup x l :
  NoDup l → x ∈ l → list_remove x l = Some (filter (λ y, y ≠ x) l).
Proof.
  induction l as [|y l IH]; intros Hnd Hx.
  { by apply elem_of_nil in Hx. }
  apply NoDup_cons in Hnd as [Hy Hl]. simpl.
  destruct (decide (x = y)) as [->|Hxy].
  - rewrite filter_cons_False by naive_solver.
    by rewrite filter_ne_absent.
  - apply elem_of_cons in Hx as [?|Hx]; [done|].
    rewrite filter_cons_True by done. by rewrite IH.
Qed.

(** ** Sockets *)

Lemma getpeername_ext w w' c :
  closed w' = closed w → peer w' = peer w → getpeername c w' = getpeername c w.
Proof. unfold getpeername. by intros -> ->. Qed.

Lemma send_outcome_ext w w' c :
  closed w' = closed w → outq w' !! c = outq w !! c →
  send_outcome w' c = send_outcome w c.
Proof. unfold send_outcome. by intros -> ->. Qed.

Lemma sendall_outq_ne c message w c' :
  c' ≠ c → outq (sendall c message w).1 !! c' = outq w !! c'.
Proof. intros Hne. simpl. by rewrite lookup_alter_ne. Qed.

(** ** A coroutine on its own *)

Lemma alone_unfold n t w :
  alone n t w =
  let '(w', spawned, out) := segment t w in
  match out, n with
  | Yielded resume, S n' =>
      let '(w'', spawned', out') := alone n' resume w' in
      (w'', spawned ++ spawned', out')
  | _, _ => (w', spawned, out)
  end.
Proof. by destruct n. Qed.

Lemma alone_BroadcastLoop_nil n message sender w :
  alone n (BroadcastLoop message sender []) w = (w, [], Finished).
Proof. by rewrite alone_unfold. Qed.

Lemma alone_BroadcastLoop_sender n message sender rest w :
  alone n (BroadcastLoop message sender (sender :: rest)) w =
  alone n (BroadcastLoop message sender rest) w.
Proof.
  rewrite !alone_unfold. simpl. by rewrite decide_True.
Qed.

(** One turn of the [for] loop of [broadcast] on a client other than the
    sender. *)
Lemma alone_BroadcastLoop_cons n message sender c rest w :
  c ≠ sender →
  alone n (BroadcastLoop message sender (c :: rest)) w =
  let w1 := (sendall c message w).1 in
  match send_outcome w c with
  | None => alone n (BroadcastLoop message sender rest) w1
  | Some e =>
      if decide (e = BlockingIOError) then
        match n with
        | 0 => (w1, [], Yielded (BroadcastLoop message sender rest))
        | S n' => alone n' (BroadcastLoop message sender rest) w1
        end
      else
        match getpeername c w1 with
        | inl e' => (w1, [], Raised e')
        | inr peername =>
            let w2 := print (if decide (e = BrokenPipeError)
                             then LogSendDisconnected peername
                             else LogBroadcastError peername e) w1 in
            match list_remove c (clients w2) with
            | None => (w2, [], Raised ValueError)
            | Some l =>
                alone n (BroadcastLoop message sender rest) (set_clients l w2)
            end
        end
  end.
Proof.
  intros Hne. rewrite (alone_unfold n (BroadcastLoop _ _ (c :: rest))).
  cbn [segment broadcast_loop]. rewrite decide_False by done.
  cbn [sendall fst]. set (w1 := mkWorld _ _ _ _ _ _ _ _).
  destruct (send_outcome w c) as [e|] eqn:Ho.
  - destruct e; cbn zeta iota beta;
      try (rewrite (decide_False (P := _ = BlockingIOError)) by done;
           destruct (getpeername c w1) as [e'|peername]; [done|];
           cbn zeta iota beta;
           destruct (list_remove c _) as [l|]; [|done];
           by rewrite (alone_unfold n (BroadcastLoop _ _ rest)));
      [].
    rewrite decide_True by done.
    destruct n as [|n']; [done|].
    by destruct (alone n' _ w1) as [[??]?].
  - by rewrite (alone_unfold n (BroadcastLoop _ _ rest)).
Qed.

(** ** broadcast *)

Lemma filter_all {X} (P : X → Prop) `{!∀ x, Decision (P x)} (l : list X) :
  (∀ x, P x) → filter P l = l.
Proof.
  intros HP. induction l as [|x l IH]; [done|].
  rewrite filter_cons_True by done. by rewrite IH.
Qed.

(** The [for] loop of [broadcast] run to its end over what is left of the
    snapshot, when no [except] branch itself raises: every client left,
    other than the sender, gets one [sendall]; how that call ends depends on
    that client alone; exactly the clients whose call failed for good leave
    [clients]. *)
Lemma broadcast_loop_alone message sender snapshot :
  ∀ n w,
    NoDup snapshot → NoDup (clients w) → snapshot ⊆ clients w →
    Forall (λ c, dropped w sender c → can_log w c = true) snapshot →
    length snapshot ≤ n →
    ∃ w',
      alone n (BroadcastLoop message sender snapshot) w = (w', [], Finished) ∧
      clients w' =
        filter (λ c, ¬ (c ∈ snapshot ∧ dropped w sender c)) (clients w) ∧
      sent w' =
        sent w ++ ((λ c, SendCall c message (send_outcome w c)) <$>
                   filter (λ c, c ≠ sender) snapshot) ∧
      peer w' = peer w ∧ closed w' = closed w ∧ inq w' = inq w ∧
      backlog w' = backlog w ∧
      (∀ c, c ∉ snapshot → outq w' !! c = outq w !! c).
Proof.
  induction snapshot as [|c rest IH]; intros n w Hnd Hndc Hsub Hlog Hn.
  { exists w. rewrite alone_BroadcastLoop_nil. split_and!; try done.
    - rewrite filter_all; [done|]. intros x [[]%elem_of_nil _].
    - simpl. by rewrite (right_id_L [] (++)). }
  apply NoDup_cons in Hnd as [Hc Hnd].
  apply Forall_cons in Hlog as [Hlogc Hlog].
  assert (Hsubr : rest ⊆ clients w).
  { intros x Hx. apply Hsub. by right. }
  assert (Hcin : c ∈ clients w) by (apply Hsub; left).
  simpl in Hn.
  destruct (decide (c = sender)) as [->|Hcs].
  { rewrite alone_BroadcastLoop_sender.
    destruct (IH n w) as (w' & Hrun & Hcl & Hsent & ? & ? & ? & ? & Hout);
      [done|done|done|done|lia|].
    exists w'. split_and!; try done.
    - rewrite Hcl. apply list_filter_iff. intros x. unfold dropped.
      rewrite elem_of_cons. split.
      + intros Hx [[->|Hr] [Hs Hf]]; [done|]. by apply Hx.
      + intros Hx [Hr [Hs Hf]]. apply Hx. auto.
    - by rewrite filter_cons_False by naive_solver.
    - intros x [_ Hx]%not_elem_of_cons. by apply Hout. }
  (* what is left to do once the turn of [c] is over *)
  assert (Hadv : ∀ n1 w1,
    length rest ≤ n1 →
    peer w1 = peer w → closed w1 = closed w → inq w1 = inq w →
    backlog w1 = backlog w →
    (∀ c', c' ≠ c → outq w1 !! c' = outq w !! c') →
    sent w1 = sent w ++ [SendCall c message (send_outcome w c)] →
    clients w1 = filter (λ x, ¬ (x = c ∧ dropped w sender c)) (clients w) →
    ∃ w',
      alone n1 (BroadcastLoop message sender rest) w1 = (w', [], Finished) ∧
      clients w' =
        filter (λ x, ¬ (x ∈ c :: rest ∧ dropped w sender x)) (clients w) ∧
      sent w' =
        sent w ++ ((λ x, SendCall x message (send_outcome w x)) <$>
                   filter (λ x, x ≠ sender) (c :: rest)) ∧
      peer w' = peer w ∧ closed w' = closed w ∧ inq w' = inq w ∧
      backlog w' = backlog w ∧
      (∀ x, x ∉ c :: rest → outq w' !! x = outq w !! x)).
  { intros n1 w1 Hn1 Hpeer Hclosed Hinq Hback Hout1 Hsent1 Hcl1.
    assert (Hso : ∀ x, x ≠ c → send_outcome w1 x = send_outcome w x).
    { intros x Hx. apply send_outcome_ext; [done|by apply Hout1]. }
    assert (Hrc : ∀ x, x ∈ rest → x ≠ c) by (intros x Hx ->; done).
    destruct (IH n1 w1) as (w' & Hrun & Hcl & Hsent & ? & ? & ? & ? & Hout);
      [done| | | |done|].
    - rewrite Hcl1. by apply NoDup_filter.
    - intros x Hx. rewrite Hcl1. apply list_elem_of_filter. split.
      + intros [-> _]. done.
      + by apply Hsubr.
    - apply Forall_forall. intros x Hx [Hxs Hxf].
      rewrite Forall_forall in Hlog.
      unfold can_log. rewrite (getpeername_ext w w1) by done.
      apply Hlog; [done|]. split; [done|].
      by rewrite <- Hso by auto.
    - exists w'. split_and!; try congruence.
      + rewrite Hcl, Hcl1, list_filter_filter. apply list_filter_iff.
        intros x. unfold dropped. rewrite elem_of_cons. split.
        * intros [Hr Hx] [[->|Hxr] [Hxs Hxf]]; [by apply Hx|].
          apply Hr. rewrite Hso by auto. done.
        * intros Hx. split.
          -- intros [Hxr [Hxs Hxf]]. apply Hx.
             rewrite Hso in Hxf by auto. auto.
          -- intros [-> Hd]. apply Hx. auto.
      + rewrite Hsent, Hsent1, filter_cons_True by done.
        rewrite <- (assoc_L (++)). f_equal. simpl. f_equal.
        apply Forall_fmap_ext_1, Forall_forall.
        intros x [_ Hx]%list_elem_of_filter. by rewrite Hso by auto.
      + intros x [Hxc Hx]%not_elem_of_cons.
        rewrite Hout by done. by apply Hout1. }
  rewrite alone_BroadcastLoop_cons by done. cbn zeta.
  assert (Hout1 : ∀ c', c' ≠ c →
            outq (sendall c message w).1 !! c' = outq w !! c').
  { intros. by apply sendall_outq_ne. }
  destruct (send_outcome w c) as [e|] eqn:Ho;
    [destruct (decide (e = BlockingIOError)) as [->|He]|].
  - (* would block: the coroutine is resumed behind the client *)
    destruct n as [|n']; [lia|].
    apply Hadv; try done; [lia|by (simpl; rewrite Ho)|].
    simpl. rewrite filter_all; [done|].
    intros x [_ [_ Hf]]. by rewrite Ho in Hf.
  - (* failed for good: the client leaves the list *)
    assert (Hd : dropped w sender c).
    { split; [done|]. rewrite Ho. by destruct e. }
    specialize (Hlogc Hd). unfold can_log in Hlogc.
    rewrite (getpeername_ext w) by done.
    destruct (getpeername c w) as [|peername]; [done|].
    cbn [print clients sendall fst].
    rewrite (list_remove_NoDup c (clients w)) by done.
    apply Hadv; try done; [lia|by (simpl; rewrite Ho)|].
    simpl. apply list_filter_iff. intros x. split.
    + intros Hx [-> _]. done.
    + intros Hx ->. apply Hx. done.
  - (* sent *)
    apply Hadv; try done; [lia|by (simpl; rewrite Ho)|].
    simpl. rewrite filter_all; [done|].
    intros x [_ [_ Hf]]. by rewrite Ho in Hf.
Qed.

Lemma filter_iff_in {X} (P Q : X → Prop)
    `{!∀ x, Decision (P x), !∀ x, Decision (Q x)} (l : list X) :
  (∀ x, x ∈ l → P x ↔ Q x) → filter P l = filter Q l.
Proof.
  induction l as [|x l IH]; intros HPQ; [done|].
  rewrite !filter_cons, IH.
  - apply decide_ext, HPQ. by left.
  - intros y Hy. apply HPQ. by right.
Qed.

(** [broadcast] from its first line. *)
Lemma alone_Broadcast n message sender w :
  alone n (Broadcast message sender) w =
  if decide (length (clients w) < 2) then (w, [], Finished)
  else match getpeername sender w with
       | inl e => (w, [], Raised e)
       | inr peername =>
           alone n (BroadcastLoop (peername ++ B ": " ++ message) sender
                                  (clients w)) w
       end.
Proof.
  rewrite alone_unfold. cbn [segment]. unfold broadcast.
  case_decide; [done|].
  destruct (getpeername sender w) as [e|peername]; [done|].
  by rewrite (alone_unfold n (BroadcastLoop _ _ _)).
Qed.

(** What one whole broadcast does, when the sender is in [clients] and no
    [except] branch itself raises. *)
Lemma broadcast_alone message sender peername w n :
  NoDup (clients w) → sender ∈ clients w →
  getpeername sender w = inr peername →
  Forall (λ c, dropped w sender c → can_log w c = true) (clients w) →
  length (clients w) ≤ n →
  ∃ w',
    alone n (Broadcast message sender) w = (w', [], Finished) ∧
    clients w' = filter (λ c, ¬ dropped w sender c) (clients w) ∧
    sent w' =
      sent w ++ ((λ c, SendCall c (peername ++ B ": " ++ message)
                                (send_outcome w c)) <$>
                 filter (λ c, c ≠ sender) (clients w)) ∧
    peer w' = peer w ∧ closed w' = closed w ∧ inq w' = inq w ∧
    backlog w' = backlog w.
Proof.
  intros Hnd Hin Hpeer Hlog Hn. rewrite alone_Broadcast.
  case_decide as Hlen.
  - (* the sender is alone in the list *)
    destruct (clients w) as [|c [|c' l]] eqn:Hcl; simpl in Hlen; [|clear Hlen|lia].
    { by apply elem_of_nil in Hin. }
    apply list_elem_of_singleton in Hin as <-.
    exists w. rewrite Hcl. split_and!; try done.
    + rewrite filter_cons_True; [done|]. intros [? _]. done.
    + rewrite filter_cons_False by (intros Hne; by apply Hne). simpl.
      by rewrite (right_id_L [] (++)).
  - rewrite Hpeer.
    destruct (broadcast_loop_alone (peername ++ B ": " ++ message) sender
                (clients w) n w) as (w' & Hrun & Hcl & Hsent & ? & ? & ? & ? & _);
      [done..|].
    exists w'. split_and!; try done.
    rewrite Hcl. apply filter_iff_in. intros x Hx. tauto.
Qed.

(** The calls on one socket among one call per member of a list without
    duplicates. *)
Lemma calls_to_fmap (call : sock → send_call) x l :
  (∀ c, sc_to (call c) = c) → NoDup l →
  calls_to x (call <$> l) = if decide (x ∈ l) then [call x] else [].
Proof.
  intros Hto. unfold calls_to. induction l as [|y l IH]; [done|].
  intros [Hy Hl]%NoDup_cons. rewrite fmap_cons, filter_cons, IH, Hto by done.
  destruct (decide (y = x)) as [->|Hyx].
  - rewrite (decide_False (P := x ∈ l)) by done.
    by rewrite (decide_True (P := x ∈ x :: l)) by left.
  - destruct (decide (x ∈ l)) as [Hx|Hx].
    + by rewrite (decide_True (P := x ∈ y :: l)) by (by right).
    + rewrite (decide_False (P := x ∈ y :: l)); [done|].
      intros [?|?]%elem_of_cons; done.
Qed.

(** The calls of one broadcast, socket by socket. *)
Lemma broadcast_calls framed sender w (calls : list send_call) :
  NoDup (clients w) →
  calls = (λ c, SendCall c framed (send_outcome w c))
            <$> filter (λ c, c ≠ sender) (clients w) →
  calls_to sender calls = [] ∧
  received sender calls = [] ∧
  ∀ c, c ∈ clients w → c ≠ sender →
    calls_to c calls = [SendCall c framed (send_outcome w c)] ∧
    (send_outcome w c = None → received c calls = [framed]).
Proof.
  intros Hnd ->.
  assert (Hndr : NoDup (filter (λ c, c ≠ sender) (clients w))).
  { by apply NoDup_filter. }
  assert (Hs : sender ∉ filter (λ c, c ≠ sender) (clients w)).
  { intros [? _]%list_elem_of_filter. done. }
  split_and!.
  - rewrite calls_to_fmap by done. by rewrite decide_False.
  - unfold received. rewrite calls_to_fmap by done. by rewrite decide_False.
  - intros c Hc Hcs.
    assert (calls_to c ((λ c, SendCall c framed (send_outcome w c))
                          <$> filter (λ c, c ≠ sender) (clients w)) =
            [SendCall c framed (send_outcome w c)]) as Hcalls.
    { rewrite calls_to_fmap by done. rewrite decide_True; [done|].
      by apply list_elem_of_filter. }
    split; [done|]. intros Hok. unfold received. rewrite Hcalls.
    by rewrite filter_cons_True.
Qed.

(** C8 — with fewer than two connections in [clients], whoever they are,
    a broadcast returns at once: the world is left as it was (no [sendall],
    the list untouched, nothing printed) and nothing is raised. *)
Theorem broadcast_below_two_is_noop message sender w n :
  length (clients w) < 2 →
  segment (Broadcast message sender) w = (w, [], Finished) ∧
  alone n (Broadcast message sender) w = (w, [], Finished).
Proof.
  intros Hlen. rewrite alone_Broadcast. cbn [segment]. unfold broadcast.
  split; by rewrite decide_True.
Qed.

(** ** handle_client *)

(** [readAll] on an open socket, when [recv] raises nothing but would-block. *)
Lemma readAll_open client_socket w q r q' :
  client_socket ∉ closed w →
  inq w !! client_socket = Some q →
  readAll_loop q [] = (r, q') →
  rr_printed r = None →
  readAll client_socket w = (r, set_inq (<[client_socket := q']> (inq w)) w).
Proof.
  intros Hopen Hq Hloop Hpr. unfold readAll.
  rewrite decide_False by done. rewrite Hq. simpl. rewrite Hloop.
  by rewrite Hpr.
Qed.

(** One turn of the loop of [handle_client] in which [readAll] returns
    bytes: they are handed, as they are, to one new [broadcast] task. *)
Lemma handle_loop_data client_socket add w q data conn q' :
  client_socket ∉ closed w →
  inq w !! client_socket = Some q →
  readAll_loop q [] = (ReadResult (Some data) conn None, q') →
  data ≠ [] →
  segment (HandleLoop client_socket add true) w =
  (print (LogReceived add data)
         (set_inq (<[client_socket := q']> (inq w)) w),
   [Broadcast data client_socket],
   Yielded (HandleLoop client_socket add conn)).
Proof.
  intros Hopen Hq Hloop Hdata. cbn [segment]. unfold handle_loop.
  erewrite readAll_open by done. cbn [rr_data rr_conn].
  destruct data as [|b data]; [done|]. by destruct conn.
Qed.

(** A turn of [handle_client] that reads [data], followed by the broadcast
    it has created. *)
Lemma handle_then_broadcast sender add peername w n q data conn q' :
  sender ∉ closed w →
  inq w !! sender = Some q →
  readAll_loop q [] = (ReadResult (Some data) conn None, q') →
  data ≠ [] →
  NoDup (clients w) → sender ∈ clients w →
  getpeername sender w = inr peername →
  Forall (λ c, dropped w sender c → can_log w c = true) (clients w) →
  length (clients w) ≤ n →
  ∃ w1 w2 calls,
    segment (HandleLoop sender add true) w =
      (w1, [Broadcast data sender], Yielded (HandleLoop sender add conn)) ∧
    alone n (Broadcast data sender) w1 = (w2, [], Finished) ∧
    sent w2 = sent w ++ calls ∧
    calls = (λ c, SendCall c (peername ++ B ": " ++ data) (send_outcome w c))
              <$> filter (λ c, c ≠ sender) (clients w) ∧
    clients w2 = filter (λ c, ¬ dropped w sender c) (clients w) ∧
    closed w2 = closed w.
Proof.
  intros Hopen Hq Hloop Hdata Hnd Hin Hpeer Hlog Hn.
  set (w1 := print (LogReceived add data)
                   (set_inq (<[sender := q']> (inq w)) w)).
  destruct (broadcast_alone data sender peername w1 n)
    as (w2 & Hrun & Hcl & Hsent & _ & Hclosed & _); [done..|].
  exists w1, w2. eexists. split_and!; try done.
  by eapply handle_loop_data.
Qed.


Lemma frames_end_with_delimiter (payloads : list bytes) :
  payloads ≠ [] →
  endswith (concat ((λ p, p ++ EOF) <$> payloads)) EOF = true.
Proof.
  induction payloads as [|p ps IH]; [done|intros _].
  destruct ps as [|p' ps].
  - simpl. rewrite (right_id_L [] (++)). apply endswith_app.
  - apply endswith_spec. apply endswith_spec in IH as [k Hk]; [|done].
    exists ((p ++ EOF) ++ k). rewrite fmap_cons. cbn [concat].
    rewrite Hk. by rewrite (assoc_L (++)).
Qed.

(** C2 (as amended) — the frames of [N >= 1] payloads read by one [recv]
    are not taken apart: [readAll] returns their whole concatenation,
    inner delimiters included, and [handle_client] hands it to exactly one
    [broadcast] as one message. *)
Theorem concatenated_frames_are_one_message payloads rest sender add w :
  payloads ≠ [] →
  length (concat ((λ p, p ++ EOF) <$> payloads)) ≤ 1024 →
  sender ∉ closed w →
  inq w !! sender =
    Some (Data (concat ((λ p, p ++ EOF) <$> payloads)) :: rest) →
  readAll sender w =
    (ReadResult (Some (concat ((λ p, p ++ EOF) <$> payloads))) true None,
     set_inq (<[sender := rest]> (inq w)) w) ∧
  ∃ w1,
    segment (HandleLoop sender add true) w =
      (w1, [Broadcast (concat ((λ p, p ++ EOF) <$> payloads)) sender],
       Yielded (HandleLoop sender add true)).
Proof.
  intros Hne Hlen Hopen Hq.
  set (data := concat ((λ p, p ++ EOF) <$> payloads)) in *.
  assert (Hend : endswith data EOF = true) by by apply frames_end_with_delimiter.
  assert (Hdata : data ≠ []).
  { intros Hnil. rewrite Hnil in Hend. done. }
  assert (Hloop : readAll_loop (Data data :: rest) [] =
                  (ReadResult (Some data) true None, rest)).
  { rewrite readAll_loop_turn by done. cbn [recv].
    rewrite decide_True by done. rewrite decide_False by done.
    cbn [app]. by rewrite Hend. }
  split.
  - by eapply readAll_open.
  - eexists. by eapply handle_loop_data.
Qed.

(** ** The client's framing *)

Ltac Zify.zify_post_hook ::= Z.to_euclidean_division_equations.

Lemma N_of_ascii_of_N n : (n < 256)%N → N_of_ascii (ascii_of_N n) = n.
Proof. apply N_ascii_embedding. Qed.

Lemma utf8_encode_char_scalar cp :
  scalar cp → is_Some (utf8_encode_char cp).
Proof.
  unfold scalar, utf8_encode_char. intros Hcp.
  repeat (case_match; try done);
    repeat match goal with
           | H : (_ <? _)%N = _ |- _ =>
               first [apply N.ltb_lt in H | apply N.ltb_ge in H]
           | H : (_ && _) = true |- _ => apply andb_prop in H as [??]
           | H : (_ <=? _)%N = true |- _ => apply N.leb_le in H
           end; lia.
Qed.

(** Settles the comparisons of the goal by arithmetic. *)
Ltac settle_comparisons :=
  repeat match goal with
         | |- context [(?a <? ?b)%N] =>
             first [rewrite (proj2 (N.ltb_lt a b)) by lia
                   |rewrite (proj2 (N.ltb_ge a b)) by lia]
         | |- context [(?a <=? ?b)%N] =>
             first [rewrite (proj2 (N.leb_le a b)) by lia
                   |rewrite (proj2 (N.leb_gt a b)) by lia]
         end.

Lemma continuation_byte n :
  (n < 64)%N → continuation (ascii_of_N (0x80 + n)) = Some n.
Proof.
  intros Hn. unfold continuation. cbn zeta.
  rewrite N_of_ascii_of_N by lia. settle_comparisons. cbn [andb].
  f_equal. lia.
Qed.

(** Decoding takes back off the front of a byte string the code point
    that was encoded there. *)
Lemma utf8_decode_encode_char cp b rest :
  utf8_encode_char cp = Some b →
  utf8_decode (b ++ rest) = (cp ::.) <$> utf8_decode rest.
Proof.
  unfold utf8_encode_char. intros Henc.
  repeat (case_match; try done); simplify_eq;
    repeat match goal with
           | H : (_ <? _)%N = _ |- _ =>
               first [apply N.ltb_lt in H | apply N.ltb_ge in H]
           | H : (_ && _) = false |- _ => apply andb_false_iff in H
           | H : _ ∨ _ |- _ => destruct H
           | H : (_ <=? _)%N = false |- _ => apply N.leb_gt in H
           end;
    cbn [app utf8_decode]; rewrite N_of_ascii_of_N by lia;
    settle_comparisons;
    rewrite ?continuation_byte by lia; cbn [mbind option_bind];
    settle_comparisons; cbn [orb andb];
    f_equal; f_equal; lia.
Qed.

Lemma utf8_encode_scalar (s : text) :
  Forall scalar s → is_Some (utf8_encode s).
Proof.
  induction 1 as [|cp s Hcp _ [bs Hbs]]; [by eexists|].
  destruct (utf8_encode_char_scalar cp Hcp) as [b Hb].
  exists (b ++ bs). cbn [utf8_encode]. by rewrite Hb, Hbs.
Qed.

(** [s.encode('utf-8').decode('utf-8')] gives [s] back. *)
Lemma utf8_decode_encode (s : text) bs :
  utf8_encode s = Some bs → utf8_decode bs = Some s.
Proof.
  revert bs. induction s as [|cp s IH]; intros bs Henc.
  { by simplify_eq/=. }
  cbn [utf8_encode] in Henc.
  destruct (utf8_encode_char cp) as [b|] eqn:Hb; [|done].
  destruct (utf8_encode s) as [bs'|]; [|done]. simplify_eq/=.
  rewrite (utf8_decode_encode_char cp) by done. by rewrite (IH bs').
Qed.

(** The delimiter does not overlap itself: before the delimiter that ends
    a frame no other occurrence can start, unless the payload holds one. *)
Lemma delimiter_not_at_front (m : text) :
  m ≠ [] → occurs_in EOF_text m = false →
  ¬ EOF_text `prefix_of` (m ++ EOF_text).
Proof.
  intros Hm Hocc [k Hk].
  destruct m as [|x1 [|x2 [|x3 [|x4 [|x5 m]]]]]; try done;
    by simplify_eq/=.
Qed.

(** Taking the delimiter out of the frame of a delimiter-free payload
    leaves the payload. *)
Lemma replace_delimiter (message : text) :
  occurs_in EOF_text message = false →
  replace EOF_text [] (message ++ EOF_text) = message.
Proof.
  unfold replace. induction message as [|c m IH]; intros Hocc; [done|].
  cbn [app replace_from].
  rewrite bool_decide_eq_false_2.
  - f_equal. apply IH. cbn [occurs_in] in Hocc.
    by apply orb_false_elim in Hocc as [_ ?].
  - by apply (delimiter_not_at_front (c :: m)).
Qed.

(** C9 — framing round trip on the client: for a payload that does not
    contain ['<EOF>'], the bytes [send_message] builds by appending the
    delimiter and encoding decode back, and with the delimiter taken out as
    [read] does, give the payload unchanged.  For a non-empty payload these
    are the bytes [send_message] hands to [send], and [read], given them,
    appends the payload and a newline to the text area. *)
Theorem framing_round_trip (message : text) :
  Forall scalar message →
  occurs_in EOF_text message = false →
  ∃ msg,
    utf8_encode (message ++ EOF_text) = Some msg ∧
    replace EOF_text [] <$> utf8_decode msg = Some message ∧
    (message ≠ [] →
     ∀ box display run,
       send_message false (mkWindow message display run) =
         (mkWindow [] (display ++ T "You: " ++ message ++ newline) run,
          Some msg) ∧
       read_turn (Received msg) (mkWindow box display run) =
         (mkWindow box (display ++ message ++ newline) run, true)).
Proof.
  intros Hsc Hocc.
  destruct (utf8_encode_scalar (message ++ EOF_text)) as [msg Hmsg].
  { apply Forall_app. split; [done|]. by compute_done. }
  pose proof (utf8_decode_encode _ _ Hmsg) as Hdec.
  exists msg. split_and!; [done| |].
  - rewrite Hdec. cbn. by rewrite replace_delimiter.
  - intros Hne box display run. split.
    + unfold send_message. cbn [msg_box msg_display running].
      rewrite decide_False by done. by rewrite Hmsg.
    + assert (msg ≠ []) as Hmsg'.
      { intros ->. cbn in Hdec. simplify_eq. by destruct message. }
      unfold read_turn. destruct msg as [|b msg]; [done|].
      rewrite Hdec. cbn [msg_box msg_display running].
      by rewrite replace_delimiter.
Qed.

(** ** No socket twice in [clients] *)

Lemma list_remove_sublist x l l' : list_remove x l = Some l' → l' `sublist_of` l.
Proof.
  revert l'. induction l as [|y l IH]; intros l' Hrm; [done|].
  simpl in Hrm. case_decide.
  - simplify_eq. by apply sublist_cons.
  - destruct (list_remove x l) as [k|]; [|done]. simplify_eq/=.
    apply sublist_skip. by apply IH.
Qed.

Lemma NoDup_submseteq_inv (l k : list sock) : NoDup k → l ⊆+ k → NoDup l.
Proof.
  intros Hk [l' Hl]%submseteq_Permutation. rewrite Hl in Hk.
  by apply NoDup_app in Hk as [? _].
Qed.

(** One turn of the [for] loop of [broadcast] on a client other than the
    sender, up to the next [await]. *)
Lemma broadcast_loop_cons message sender c rest w :
  c ≠ sender →
  broadcast_loop message sender (c :: rest) w =
  let w1 := (sendall c message w).1 in
  match send_outcome w c with
  | None => broadcast_loop message sender rest w1
  | Some e =>
      if decide (e = BlockingIOError)
      then (w1, Yielded (BroadcastLoop message sender rest))
      else
        match getpeername c w1 with
        | inl e' => (w1, Raised e')
        | inr peername =>
            let w2 := print (if decide (e = BrokenPipeError)
                             then LogSendDisconnected peername
                             else LogBroadcastError peername e) w1 in
            match list_remove c (clients w2) with
            | None => (w2, Raised ValueError)
            | Some l => broadcast_loop message sender rest (set_clients l w2)
            end
        end
  end.
Proof.
  intros Hne. cbn [broadcast_loop]. rewrite decide_False by done.
  cbn [sendall fst]. destruct (send_outcome w c) as [[]|]; reflexivity.
Qed.

(** [broadcast] only ever takes sockets out of [clients]. *)
Lemma broadcast_loop_clients message sender snapshot :
  ∀ w w' out,
    broadcast_loop message sender snapshot w = (w', out) →
    clients w' `sublist_of` clients w ∧ backlog w' = backlog w ∧
    waiting (match out with Yielded r => [r] | _ => [] end) = [].
Proof.
  induction snapshot as [|c rest IH]; intros w w' out Hrun.
  { by simplify_eq/=. }
  destruct (decide (c = sender)) as [->|Hcs].
  { cbn [broadcast_loop] in Hrun. rewrite decide_True in Hrun by done.
    by apply IH in Hrun. }
  rewrite broadcast_loop_cons in Hrun by done. cbn zeta in Hrun.
  destruct (send_outcome w c) as [e|]; [|by apply IH in Hrun].
  case_decide; [by simplify_eq/=|].
  destruct (getpeername _ _) as [e'|peername]; [by simplify_eq/=|].
  cbn [print clients sendall fst] in Hrun.
  destruct (list_remove c (clients w)) as [l|] eqn:Hrm; [|by simplify_eq/=].
  apply IH in Hrun as (Hsub & Hback & Hout). cbn in Hsub, Hback.
  split_and!; [|done..]. etrans; [done|]. by eapply list_remove_sublist.
Qed.

(** The accept loop hands every socket it accepts to a new handler and
    does not touch [clients]. *)
Lemma main_loop_sockets pending :
  ∀ w w' spawned out,
    main_loop pending w = (w', spawned, out) →
    clients w' = clients w ∧
    arriving pending = waiting spawned ++ arriving (backlog w') ∧
    waiting (match out with Yielded r => [r] | _ => [] end) = [].
Proof.
  induction pending as [|[s addr|e] pending IH]; intros w w' spawned out Hrun.
  - by simplify_eq/=.
  - cbn [main_loop] in Hrun.
    destruct (main_loop pending _) as [[w1 sp1] out1] eqn:Hrec.
    simplify_eq. apply IH in Hrec as (Hcl & Harr & Hout).
    split_and!; [done| |done]. unfold arriving, waiting in *. cbn.
    by f_equal.
  - by destruct e; simplify_eq/=.
Qed.

(** [handle_client] past its first line: it takes at most its own socket
    out of [clients] and creates no handler. *)
Lemma handle_loop_sockets s add connected w w' spawned out :
  handle_loop s add connected w = (w', spawned, out) →
  clients w' `sublist_of` clients w ∧ backlog w' = backlog w ∧
  waiting spawned = [] ∧
  waiting (match out with Yielded r => [r] | _ => [] end) = [].
Proof.
  intros Hrun. unfold handle_loop in Hrun. destruct connected.
  - unfold readAll in Hrun.
    destruct (readAll_loop _ []) as [r q'].
    destruct (rr_data r) as [[|b data]|], (rr_printed r); by simplify_eq/=.
  - cbn [print clients] in Hrun.
    destruct (list_remove s (clients w)) as [l|] eqn:Hrm; simplify_eq/=;
      [|done]. split_and!; try done. by eapply list_remove_sublist.
Qed.

(** What a coroutine does to the sockets known to the event loop: the
    sockets in [clients], with those of its new handlers and those left to
    accept, were all known before; and a coroutine never resumes as a
    handler that has not started. *)
Lemma segment_sockets t w w' spawned out :
  segment t w = (w', spawned, out) →
  clients w' ++ waiting spawned ++ arriving (backlog w') ⊆+
    waiting [t] ++ clients w ++ arriving (backlog w) ∧
  waiting (match out with Yielded r => [r] | _ => [] end) = [].
Proof.
  intros Hseg. destruct t as [|s add|s add connected|message sender
                              |message sender rest]; cbn [segment] in Hseg.
  - apply main_loop_sockets in Hseg as (-> & -> & Hout).
    split; [|done]. cbn. by rewrite (assoc_L (++)).
  - unfold handle_client in Hseg. case_decide.
    { simplify_eq. split; [|done]. cbn. apply submseteq_cons. reflexivity. }
    apply handle_loop_sockets in Hseg as (Hsub & -> & -> & Hout).
    split; [|done]. cbn in *.
    change (s :: clients w ++ arriving (backlog w))
      with ((s :: clients w) ++ arriving (backlog w)).
    apply submseteq_skips_r.
    etrans; [by apply sublist_submseteq|].
    by rewrite <- Permutation_cons_append.
  - apply handle_loop_sockets in Hseg as (Hsub & -> & -> & Hout).
    split; [|done]. cbn. by apply submseteq_skips_r, sublist_submseteq.
  - unfold broadcast in Hseg. case_decide; [by simplify_eq/=|].
    destruct (getpeername sender w); [by simplify_eq/=|].
    destruct (broadcast_loop _ _ _ _) as [w1 out1] eqn:Hrun. simplify_eq.
    apply broadcast_loop_clients in Hrun as (Hsub & -> & Hout).
    split; [|done]. cbn. by apply submseteq_skips_r, sublist_submseteq.
  - destruct (broadcast_loop _ _ _ _) as [w1 out1] eqn:Hrun. simplify_eq.
    apply broadcast_loop_clients in Hrun as (Hsub & -> & Hout).
    split; [|done]. cbn. by apply submseteq_skips_r, sublist_submseteq.
Qed.

Lemma waiting_app ts1 ts2 : waiting (ts1 ++ ts2) = waiting ts1 ++ waiting ts2.
Proof. apply omap_app. Qed.

Lemma sockets_rotate (a b c d : list sock) :
  a ++ (b ++ c) ++ d ≡ₚ b ++ a ++ c ++ d.
Proof.
  rewrite <- (assoc_L (++) b c d), (assoc_L (++) a b), (assoc_L (++) b a).
  apply Permutation_app_tail, Permutation_app_comm.
Qed.

Lemma sockets_swap (a b c d : list sock) :
  c ++ b ++ a ++ d ≡ₚ a ++ (b ++ c) ++ d.
Proof.
  rewrite (sockets_rotate a b c d).
  rewrite (assoc_L (++) c b), (assoc_L (++) b a).
  rewrite (Permutation_app_comm c b).
  rewrite <- (assoc_L (++) b c), <- (assoc_L (++) b a).
  apply Permutation_app_head.
  rewrite (assoc_L (++) c a), (assoc_L (++) a c).
  apply Permutation_app_tail, Permutation_app_comm.
Qed.

(** When the sockets in [clients], those of the handlers not yet started
    and those waiting to be accepted are pairwise distinct, they still are
    after the event loop has run one more coroutine. *)
Lemma step_keeps_sockets_fresh (l : Loop) :
  fresh_sockets l → fresh_sockets (step l).
Proof.
  unfold fresh_sockets, step. intros Hnd.
  destruct (ready l) as [|t ts] eqn:Hready;
    [destruct (alive l); by rewrite Hready|].
  destruct (segment t (world l)) as [[w spawned] out] eqn:Hseg.
  apply segment_sockets in Hseg as [Hsub Hout].
  assert (Hall : NoDup (clients w ++ waiting (ts ++ spawned) ++
                        arriving (backlog w))).
  { eapply NoDup_submseteq_inv; [exact Hnd|].
    rewrite waiting_app. change (t :: ts) with ([t] ++ ts).
    rewrite waiting_app.
    etrans; [|etrans; [apply (submseteq_skips_l (waiting ts)), Hsub|]].
    - apply Permutation_submseteq. apply sockets_rotate.
    - apply Permutation_submseteq. apply sockets_swap. }
  destruct (alive l).
  2:{ cbn [world ready]. eapply NoDup_submseteq_inv; [exact Hall|].
      rewrite waiting_app, <- (assoc_L (++)).
      apply submseteq_skips_l, submseteq_skips_l, submseteq_inserts_l.
      reflexivity. }
  destruct out as [|e|r].
  - destruct t; exact Hall.
  - exact Hall.
  - cbn [world ready]. change (waiting [r] = []) in Hout.
    rewrite (assoc_L (++) ts), waiting_app, Hout.
    rewrite (right_id_L [] (++)). exact Hall.
Qed.


(** X1 — no socket is ever twice in [clients]: as long as [accept] hands
    out sockets that are new (distinct from each other and from those
    already known), [clients] has no duplicate after any number of turns of
    the event loop, whatever the sockets do. *)
Theorem clients_never_hold_a_socket_twice (n : nat) (l : Loop) :
  fresh_sockets l → NoDup (clients (world (steps n l))).
Proof.
  revert l. induction n as [|n IH]; intros l Hl.
  - by apply NoDup_app in Hl as [? _].
  - cbn [steps]. by apply IH, step_keeps_sockets_fresh.
Qed.

(** ** When [accept] fails *)





(** ** What a read leaves behind *)

(** Bytes that do not complete a frame keep the loop of [readAll] going:
    it goes on with what follows them in the queue. *)
Lemma readAll_loop_skip n :
  ∀ chunks data q,
    weight (Data <$> chunks) ≤ n →
    Forall (λ c, c ≠ []) chunks →
    occurs_in EOF (data ++ concat chunks) = false →
    readAll_loop ((Data <$> chunks) ++ q) data =
    readAll_loop q (data ++ concat chunks).
Proof.
  induction n as [n IH] using lt_wf_ind.
  intros [|c cs] data q Hw Hne Hin.
  - simpl. by rewrite (right_id_L [] (++)).
  - apply Forall_cons in Hne as [Hc Hcs]. simpl in Hw, Hin.
    rewrite readAll_loop_turn by done. simpl.
    case_decide as Hlen.
    + rewrite decide_False by done.
      rewrite (assoc_L (++)) in Hin. rewrite (not_occurs_app_l _ _ _ Hin).
      rewrite (IH (weight (Data <$> cs))); [|unfold fmap in *; simpl in *; lia|done..].
      by rewrite <- (assoc_L (++)).
    + assert (take 1024 c ≠ []) as Ht.
      { intros Ht%(f_equal length). rewrite length_take in Ht.
        change (length []) with 0 in Ht. lia. }
      assert (drop 1024 c ≠ []) as Hd.
      { intros Hd%(f_equal length). rewrite length_drop in Hd.
        change (length []) with 0 in Hd. lia. }
      rewrite decide_False by done.
      rewrite <- (take_drop 1024 c), <- !(assoc_L (++)) in Hin.
      rewrite (assoc_L (++) data) in Hin. rewrite (not_occurs_app_l _ _ _ Hin).
      etrans; [apply IH with (m := weight (Data <$> drop 1024 c :: cs))
                             (chunks := drop 1024 c :: cs)|].
      * simpl. rewrite length_drop. lia.
      * done.
      * by apply Forall_cons.
      * exact Hin.
      * simpl. rewrite <- !(assoc_L (++)). rewrite (assoc_L (++) (take _ _)).
        by rewrite take_drop.
Qed.

(** [readAll] on an open socket, whatever it prints. *)
Lemma readAll_queue client_socket w q r q' :
  client_socket ∉ closed w →
  inq w !! client_socket = Some q →
  readAll_loop q [] = (r, q') →
  readAll client_socket w =
  (r, match rr_printed r with
      | Some e => print (LogReadError e)
                        (set_inq (<[client_socket := q']> (inq w)) w)
      | None => set_inq (<[client_socket := q']> (inq w)) w
      end).
Proof.
  intros Hopen Hq Hr. unfold readAll.
  rewrite decide_False by done. rewrite Hq. simpl. by rewrite Hr.
Qed.

(** X2 — a would-block ends the call empty-handed: when [recv] has nothing
    more to give before the bytes read so far end with the delimiter,
    [readAll] returns [(None, True)]; the bytes it had read are gone from
    the socket and are in no message, now or later.  The handler creates no
    broadcast, prints nothing and stays connected. *)
Theorem would_block_discards_what_was_read chunks tail s add w :
  Forall (λ c, c ≠ []) chunks →
  occurs_in EOF (concat chunks) = false →
  tail = [] ∨ (∃ rest, tail = RecvRaises BlockingIOError :: rest) →
  s ∉ closed w →
  inq w !! s = Some ((Data <$> chunks) ++ tail) →
  readAll s w =
    (ReadResult None true None,
     set_inq (<[s := drop 1 tail]> (inq w)) w) ∧
  segment (HandleLoop s add true) w =
    (set_inq (<[s := drop 1 tail]> (inq w)) w,
     [], Yielded (HandleLoop s add true)).
Proof.
  intros Hne Hin Htail Hopen Hq.
  assert (readAll_loop ((Data <$> chunks) ++ tail) [] =
          (ReadResult None true None, drop 1 tail)) as Hr.
  { rewrite (readAll_loop_skip (weight (Data <$> chunks))) by done.
    destruct Htail as [->|[rest ->]]; [done|].
    by rewrite readAll_loop_turn. }
  pose proof (readAll_queue _ _ _ _ _ Hopen Hq Hr) as Hread.
  split; [done|]. simpl. unfold handle_loop. by rewrite Hread.
Qed.



(** ** Frames one after the other *)

Lemma frames_in_order_from s add :
  ∀ payloads chunkss rest w,
    Forall (λ p, occurs_in EOF p = false) payloads →
    Forall2 (λ p chunks, Forall (λ c, c ≠ []) chunks ∧ concat chunks = p ++ EOF)
            payloads chunkss →
    payloads ≠ [] →
    s ∉ closed w →
    inq w !! s = Some ((Data <$> concat chunkss) ++ rest) →
    ∃ w',
      alone (length payloads - 1) (HandleLoop s add true) w =
        (w', (λ p, Broadcast (p ++ EOF) s) <$> payloads,
         Yielded (HandleLoop s add true)) ∧
      inq w' = <[s := rest]> (inq w) ∧
      clients w' = clients w ∧ sent w' = sent w ∧ closed w' = closed w ∧
      stdout w' = stdout w ++ ((λ p, LogReceived add (p ++ EOF)) <$> payloads).
Proof.
  induction payloads as [|p ps IH]; intros chunkss rest w Hps Hch Hnil Hopen Hq;
    [done|clear Hnil].
  apply Forall_cons in Hps as [Hp Hps].
  apply Forall2_cons_inv_l in Hch as (chunks & css & [Hne Hcat] & Hch & ->).
  simpl in Hq. rewrite fmap_app, <- (assoc_L (++)) in Hq.
  assert (chunks ≠ []) as Hnil.
  { intros ->. simpl in Hcat. by destruct p. }
  assert (p ++ EOF ≠ []) as Hdata by (by destruct p).
  pose proof (readAll_loop_frame p Hp (weight (Data <$> chunks)) chunks []
                ((Data <$> concat css) ++ rest) (le_n _) Hne Hnil Hcat) as Hr.
  pose proof (handle_loop_data s add w _ _ _ _ Hopen Hq Hr Hdata) as Hseg.
  destruct ps as [|p' ps].
  - apply Forall2_nil_inv_l in Hch as ->. simpl in *.
    rewrite Hseg. eexists. split_and!; reflexivity.
  - set (w1 := print (LogReceived add (p ++ EOF))
                 (set_inq (<[s:=(Data <$> concat css) ++ rest]> (inq w)) w)) in *.
    destruct (IH css rest w1) as (w' & Hal & Hinq & Hcl & Hsent & Hclosed & Hout);
      [done..| |].
    { simpl. by rewrite lookup_insert_eq. }
    exists w'. split_and!.
    + replace (length (p :: p' :: ps) - 1) with (S (length (p' :: ps) - 1))
        by (simpl; lia).
      rewrite alone_unfold, Hseg, Hal. reflexivity.
    + rewrite Hinq. simpl. by rewrite insert_insert_eq.
    + by rewrite Hcl.
    + by rewrite Hsent.
    + by rewrite Hclosed.
    + rewrite Hout. simpl. by rewrite <- (assoc_L (++)).
Qed.

(** X4 — each frame of a sender gets a broadcast of its own, and the
    broadcasts are created in the order the frames were read: when every
    frame ends where a chunk ends and the chunks are there to be read, the
    handler creates one broadcast task per frame, turn after turn, oldest
    first.  This is the order of creation only; in which order the frames
    then reach a recipient is not said here (a broadcast that waits after a
    would-block can be overtaken by the next). *)
Theorem frames_get_a_broadcast_each payloads chunkss rest s add w :
  Forall (λ p, occurs_in EOF p = false) payloads →
  Forall2 (λ p chunks, Forall (λ c, c ≠ []) chunks ∧ concat chunks = p ++ EOF)
          payloads chunkss →
  payloads ≠ [] →
  s ∉ closed w →
  inq w !! s = Some ((Data <$> concat chunkss) ++ rest) →
  ∃ w' spawned,
    alone (length payloads - 1) (HandleLoop s add true) w =
      (w', spawned, Yielded (HandleLoop s add true)) ∧
    spawned = (λ p, Broadcast (p ++ EOF) s) <$> payloads ∧
    messages_of spawned = (λ p, p ++ EOF) <$> payloads ∧
    inq w' !! s = Some rest.
Proof.
  intros Hps Hch Hnil Hopen Hq.
  destruct (frames_in_order_from s add payloads chunkss rest w)
    as (w' & Hal & Hinq & _); [done..|].
  exists w', ((λ p, Broadcast (p ++ EOF) s) <$> payloads). split_and!; [done..| |].
  - unfold messages_of. clear. induction payloads as [|p ps IH]; [done|].
    rewrite !fmap_cons. cbn [omap list_omap]. f_equal. exact IH.
  - rewrite Hinq. by rewrite lookup_insert_eq.
Qed.

(** ** The life of a connection *)


(** X6 — the end of a handler whose socket is no longer in [clients] (a
    failed send took it out): [clients.remove] raises [ValueError], the
    coroutine ends there, and [close] is never called on the socket. *)
Theorem teardown_of_removed_socket_raises s add w :
  s ∉ clients w →
  ∃ w',
    segment (HandleLoop s add false) w = (w', [], Raised ValueError) ∧
    clients w' = clients w ∧
    closed w' = closed w ∧
    stdout w' = stdout w ++ [LogClientDisconnected add;
                             LogLength (length (clients w))].
Proof.
  intros Hs. eexists. split_and!.
  - simpl. unfold handle_loop.
    change (clients (print _ (print _ w))) with (clients w).
    rewrite (list_remove_None _ _ Hs). reflexivity.
  - done.
  - done.
  - simpl. by rewrite <- (assoc_L (++)).
Qed.

(** ** The accept loop *)

Lemma main_loop_accepts conns tail :
  tail = [] ∨ (∃ pending, tail = AcceptRaises BlockingIOError :: pending) →
  ∀ w,
    ∃ w',
      main_loop ((uncurry Accepted <$> conns) ++ tail) w =
        (w', uncurry HandleClient <$> conns, Yielded Main) ∧
      backlog w' = drop 1 tail ∧
      clients w' = clients w ∧ sent w' = sent w ∧ closed w' = closed w ∧
      inq w' = inq w ∧
      stdout w' = stdout w ++ (LogConnection ∘ snd <$> conns).
Proof.
  intros Htail. induction conns as [|[c a] conns IH]; intros w.
  - destruct Htail as [->|[pending ->]]; simpl;
      (eexists; split_and!; [reflexivity|done..|by rewrite (right_id_L [] (++))]).
  - destruct (IH (print (LogConnection a) w))
      as (w' & Hm & Hb & Hc & Hs & Hcl & Hi & Ho).
    exists w'. rewrite !fmap_cons.
    change ((uncurry Accepted (c, a) :: (uncurry Accepted <$> conns)) ++ tail)
      with (Accepted c a :: ((uncurry Accepted <$> conns) ++ tail)).
    cbn [main_loop]. rewrite Hm. split_and!; [done..|].
    rewrite Ho. simpl. by rewrite <- (assoc_L (++)).
Qed.

(** X7 — [main] accepts every connection that is waiting before it yields:
    the handlers are created in the order of arrival, behind whatever was
    already scheduled, and [main] queues up again behind them.  None of the
    new sockets is in [clients] yet: a handler registers its socket when it
    first runs. *)
Theorem accept_loop_takes_all_pending conns tail w ts :
  tail = [] ∨ (∃ pending, tail = AcceptRaises BlockingIOError :: pending) →
  backlog w = (uncurry Accepted <$> conns) ++ tail →
  ∃ w',
    segment Main w = (w', uncurry HandleClient <$> conns, Yielded Main) ∧
    step (mkLoop w (Main :: ts) true) =
      mkLoop w' (ts ++ (uncurry HandleClient <$> conns) ++ [Main]) true ∧
    backlog w' = drop 1 tail ∧
    clients w' = clients w ∧
    stdout w' = stdout w ++ (LogConnection ∘ snd <$> conns).
Proof.
  intros Htail Hb.
  destruct (main_loop_accepts conns tail Htail w)
    as (w' & Hm & Hb' & Hc & _ & _ & _ & Ho).
  exists w'. split_and!; [| |done..].
  - simpl. by rewrite Hb.
  - unfold step. cbn [alive ready world segment]. by rewrite Hb, Hm.
Qed.

(** ** What a broadcast never does *)

(** The sockets a broadcast has called [sendall] on, however far it got. *)
Lemma broadcast_loop_attempts message sender snapshot :
  ∀ n w w' spawned out,
    alone n (BroadcastLoop message sender snapshot) w = (w', spawned, out) →
    spawned = [] ∧
    ∃ calls,
      sent w' = sent w ++ calls ∧
      (sc_to <$> calls) `prefix_of` filter (λ c, c ≠ sender) snapshot ∧
      (out = Finished → sc_to <$> calls = filter (λ c, c ≠ sender) snapshot) ∧
      Forall (λ call, sc_bytes call = message) calls ∧
      inq w' = inq w ∧ peer w' = peer w ∧ closed w' = closed w ∧
      backlog w' = backlog w ∧
      clients w' `sublist_of` clients w.
Proof.
  induction snapshot as [|c rest IH]; intros n w w' spawned out Hal.
  - rewrite alone_BroadcastLoop_nil in Hal. simplify_eq.
    split; [done|]. exists []. rewrite (right_id_L [] (++)).
    split_and!; done.
  - destruct (decide (c = sender)) as [->|Hc].
    { rewrite alone_BroadcastLoop_sender in Hal.
      rewrite filter_cons_False by (intros ?; done). by apply IH in Hal. }
    rewrite filter_cons_True by done.
    rewrite alone_BroadcastLoop_cons in Hal by done. cbv zeta in Hal.
    set (call := SendCall c message (send_outcome w c)) in *.
    set (w1 := (sendall c message w).1) in *.
    assert (sent w1 = sent w ++ [call] ∧ inq w1 = inq w ∧ peer w1 = peer w ∧
            closed w1 = closed w ∧ backlog w1 = backlog w ∧
            clients w1 = clients w ∧ sc_to call = c ∧ sc_bytes call = message)
      as (Hs1 & Hi1 & Hp1 & Hcl1 & Hb1 & Hc1 & Hto & Hbytes) by done.
    clearbody w1 call.
    assert (∀ k w2 w3 sp o,
              alone k (BroadcastLoop message sender rest) w2 = (w3, sp, o) →
              sent w2 = sent w1 → inq w2 = inq w1 → peer w2 = peer w1 →
              closed w2 = closed w1 → backlog w2 = backlog w1 →
              clients w2 `sublist_of` clients w1 →
              sp = [] ∧
              ∃ calls,
                sent w3 = sent w ++ calls ∧
                (sc_to <$> calls) `prefix_of`
                  c :: filter (λ c, c ≠ sender) rest ∧
                (o = Finished →
                 sc_to <$> calls = c :: filter (λ c, c ≠ sender) rest) ∧
                Forall (λ call, sc_bytes call = message) calls ∧
                inq w3 = inq w ∧ peer w3 = peer w ∧ closed w3 = closed w ∧
                backlog w3 = backlog w ∧
                clients w3 `sublist_of` clients w) as Hgo.
    { intros k w2 w3 sp o Hk Hsent Hinq Hpeer Hclosed Hback Hsub.
      apply IH in Hk
        as (-> & calls & Hs & Hpre & Hfin & Hall & Hi & Hp & Hcl & Hb & Hsb).
      split; [done|]. exists (call :: calls). split_and!.
      - by rewrite Hs, Hsent, Hs1, <- (assoc_L (++)).
      - rewrite fmap_cons, Hto. by apply prefix_cons.
      - intros Ho. rewrite fmap_cons, Hto. by rewrite Hfin.
      - by apply Forall_cons.
      - congruence.
      - congruence.
      - congruence.
      - congruence.
      - rewrite <- Hc1. by etrans. }
    assert (sent w' = sent w1 → inq w' = inq w1 → peer w' = peer w1 →
            closed w' = closed w1 → backlog w' = backlog w1 →
            clients w' = clients w1 → spawned = [] → out ≠ Finished →
              spawned = [] ∧
              ∃ calls,
                sent w' = sent w ++ calls ∧
                (sc_to <$> calls) `prefix_of`
                  c :: filter (λ c, c ≠ sender) rest ∧
                (out = Finished →
                 sc_to <$> calls = c :: filter (λ c, c ≠ sender) rest) ∧
                Forall (λ call, sc_bytes call = message) calls ∧
                inq w' = inq w ∧ peer w' = peer w ∧ closed w' = closed w ∧
                backlog w' = backlog w ∧
                clients w' `sublist_of` clients w) as Hstop.
    { intros Hs2 Hi2 Hp2 Hcl2 Hb2 Hc2 -> Ho. split; [done|]. exists [call].
      split_and!; try congruence.
      - simpl. rewrite Hto. apply prefix_cons, prefix_nil.
      - by apply Forall_singleton.
      - by rewrite Hc2, Hc1. }
    destruct (send_outcome w c) as [e|] eqn:Hout.
    + case_decide as He.
      * destruct n as [|n'].
        -- simplify_eq. by apply Hstop.
        -- eapply Hgo; [exact Hal|reflexivity..].
      * destruct (getpeername c w1) as [e'|peername] eqn:Hpn.
        { simplify_eq. by apply Hstop. }
        cbn [print clients] in Hal.
        destruct (list_remove c (clients w1)) as [l|] eqn:Hrm.
        -- eapply Hgo; [exact Hal|reflexivity..|].
           by eapply list_remove_sublist.
        -- simplify_eq. by apply Hstop.
    + eapply Hgo; [exact Hal|reflexivity..].
Qed.

(** X8 — whatever the sockets do and however it ends (it returns, an
    [except] branch raises, or it waits after a would-block), a broadcast
    calls [sendall] on the sockets of [clients[:]] in their order, without
    skipping one it has not reached the end of, never on the sender, always
    with the same bytes: the sender's address, [b": "] and the message.  It
    creates no task, closes no socket, reads from none and only ever takes
    sockets out of [clients]. *)
Theorem broadcast_never_echoes n message sender w w' spawned out :
  alone n (Broadcast message sender) w = (w', spawned, out) →
  spawned = [] ∧
  ∃ calls,
    sent w' = sent w ++ calls ∧
    (sc_to <$> calls) `prefix_of` filter (λ c, c ≠ sender) (clients w) ∧
    calls_to sender calls = [] ∧
    (∀ call, call ∈ calls →
       ∃ peername, getpeername sender w = inr peername ∧
                   sc_bytes call = peername ++ B ": " ++ message) ∧
    inq w' = inq w ∧ peer w' = peer w ∧ closed w' = closed w ∧
    backlog w' = backlog w ∧
    clients w' `sublist_of` clients w.
Proof.
  intros Hal. rewrite alone_Broadcast in Hal.
  assert (∀ calls : list send_call,
            (sc_to <$> calls) `prefix_of` filter (λ c, c ≠ sender) (clients w) →
            calls_to sender calls = []) as Hnone.
  { intros calls [k Hk]. unfold calls_to.
    destruct (filter (λ call, sc_to call = sender) calls) as [|call l] eqn:Hf;
      [done|exfalso].
    assert (call ∈ filter (λ call, sc_to call = sender) calls) as Hcall
      by (rewrite Hf; left).
    apply list_elem_of_filter in Hcall as [Hto Hcall].
    assert (sc_to call ∈ filter (λ c, c ≠ sender) (clients w)) as Hin.
    { rewrite Hk. apply elem_of_app. left. by apply list_elem_of_fmap_2. }
    apply list_elem_of_filter in Hin as [Hne _]. done. }
  assert (w' = w → spawned = [] →
          spawned = [] ∧
          ∃ calls,
            sent w' = sent w ++ calls ∧
            (sc_to <$> calls) `prefix_of` filter (λ c, c ≠ sender) (clients w) ∧
            calls_to sender calls = [] ∧
            (∀ call, call ∈ calls →
               ∃ peername, getpeername sender w = inr peername ∧
                           sc_bytes call = peername ++ B ": " ++ message) ∧
            inq w' = inq w ∧ peer w' = peer w ∧ closed w' = closed w ∧
            backlog w' = backlog w ∧
            clients w' `sublist_of` clients w) as Hnothing.
  { intros -> ->. split; [done|]. exists []. rewrite (right_id_L [] (++)).
    split_and!; try done.
    - apply prefix_nil.
    - intros call Hcall. by apply elem_of_nil in Hcall. }
  case_decide as Hlen; [simplify_eq; by apply Hnothing|].
  destruct (getpeername sender w) as [e|peername] eqn:Hpn;
    [simplify_eq; by apply Hnothing|].
  apply broadcast_loop_attempts in Hal
    as (-> & calls & Hs & Hpre & _ & Hall & Hi & Hp & Hcl & Hb & Hsb).
  split; [done|]. exists calls. split_and!; try done.
  - by apply Hnone.
  - intros call Hcall. exists peername. split; [done|].
    by eapply Forall_forall in Hall.
Qed.


(** ** From one window to another *)

Lemma utf8_encode_app (s1 s2 : text) :
  utf8_encode (s1 ++ s2) =
  b1 ← utf8_encode s1; b2 ← utf8_encode s2; Some (b1 ++ b2).
Proof.
  induction s1 as [|cp s1 IH]; simpl.
  - by destruct (utf8_encode s2).
  - destruct (utf8_encode_char cp) as [b|]; [|done]. simpl. rewrite IH.
    destruct (utf8_encode s1) as [b1|]; [|done]. simpl.
    destruct (utf8_encode s2) as [b2|]; [|done]. simpl.
    by rewrite (assoc_L (++)).
Qed.

(** The encoding of a code point is one byte below 128, the code point
    itself, or bytes that are all 128 or more. *)
Lemma utf8_encode_char_bytes cp b :
  utf8_encode_char cp = Some b →
  (b = [ascii_of_N cp] ∧ (cp < 128)%N) ∨
  (Forall (λ x, (128 ≤ N_of_ascii x)%N) b ∧ b ≠ []).
Proof.
  unfold utf8_encode_char. intros Henc.
  repeat (case_match; try done); simplify_eq;
    repeat match goal with
           | H : (_ <? _)%N = _ |- _ =>
               first [apply N.ltb_lt in H | apply N.ltb_ge in H]
           | H : (_ && _) = false |- _ => apply andb_false_iff in H
           | H : _ ∨ _ |- _ => destruct H
           | H : (_ <=? _)%N = false |- _ => apply N.leb_gt in H
           end;
    first [left; split; [done|lia]
          |right; split; [|done];
           repeat apply Forall_cons_2; try apply Forall_nil_2;
           rewrite N_of_ascii_of_N by lia; lia].
Qed.

(** A run of ASCII characters at the front of the bytes of a [str] is at
    the front of the [str]. *)
Lemma ascii_prefix_of_encoding (needle : text) :
  Forall (λ c, (c < 128)%N) needle →
  ∀ s bs,
    utf8_encode s = Some bs →
    (ascii_of_N <$> needle) `prefix_of` bs →
    needle `prefix_of` s.
Proof.
  induction 1 as [|c needle Hc _ IH]; intros s bs Henc Hpre.
  { apply prefix_nil. }
  destruct s as [|cp s].
  { simpl in Henc. simplify_eq. by apply prefix_nil_inv in Hpre. }
  cbn [utf8_encode] in Henc.
  destruct (utf8_encode_char cp) as [b|] eqn:Hb; [|done].
  destruct (utf8_encode s) as [bs'|] eqn:Hbs; [|done]. simplify_eq/=.
  destruct (utf8_encode_char_bytes _ _ Hb) as [[-> Hcp]|[Hhigh Hne]].
  - simpl in Hpre. destruct Hpre as [k Hk]. simplify_eq/=.
    assert (cp = c) as ->.
    { rewrite <- (N_of_ascii_of_N cp), <- (N_of_ascii_of_N c) by lia.
      by f_equal. }
    apply prefix_cons. eapply IH; [done|]. by exists k.
  - destruct b as [|x b]; [done|]. apply Forall_cons in Hhigh as [Hx _].
    destruct Hpre as [k Hk]. simplify_eq/=.
    rewrite N_of_ascii_of_N in Hx by lia. lia.
Qed.

(** ASCII characters occur in the bytes of a [str] only where they occur
    in the [str]: no byte of a longer encoding is below 128. *)
Lemma ascii_occurs_in_encoding (needle : text) :
  needle ≠ [] →
  Forall (λ c, (c < 128)%N) needle →
  ∀ s bs,
    utf8_encode s = Some bs →
    occurs_in (ascii_of_N <$> needle) bs = true →
    occurs_in needle s = true.
Proof.
  intros Hnil Hascii. induction s as [|cp s IH]; intros bs Henc Hocc.
  { simpl in Henc. simplify_eq. simpl in Hocc.
    rewrite orb_false_r in Hocc. apply bool_decide_eq_true in Hocc.
    apply prefix_nil_inv, fmap_nil_inv in Hocc. done. }
  pose proof Henc as Henc'. cbn [utf8_encode] in Henc.
  destruct (utf8_encode_char cp) as [b|] eqn:Hb; [|done].
  destruct (utf8_encode s) as [bs'|] eqn:Hbs; [|done]. simplify_eq/=.
  apply occurs_in_spec in Hocc as (l & r & Hlr).
  destruct l as [|x l].
  { apply orb_true_iff. left. apply bool_decide_eq_true.
    apply (ascii_prefix_of_encoding needle Hascii (cp :: s) _ Henc').
    rewrite Hlr. simpl. by apply prefix_app_r. }
  apply orb_true_iff. right.
  apply (IH bs'); [done|]. apply occurs_in_spec.
  destruct (utf8_encode_char_bytes _ _ Hb) as [[-> Hcp]|[Hhigh Hne]].
  { simplify_eq/=. by exists l, r. }
  symmetry in Hlr. apply app_eq_inv in Hlr as [(k & Hk1 & Hk2)|(k & Hk1 & Hk2)].
  - subst. by exists k, r.
  - (* the occurrence starts inside the bytes of [cp] *)
    destruct needle as [|c needle]; [done|].
    apply Forall_cons in Hascii as [Hc _].
    destruct k as [|y k].
    { rewrite (right_id_L [] (++)) in Hk1. simpl in Hk2. subst.
      exists [], r. done. }
    exfalso. simplify_eq/=.
    assert (ascii_of_N c ∈ (x :: l) ++ ascii_of_N c :: k) as Hy.
    { apply elem_of_app. right. left. }
    eapply Forall_forall in Hhigh; [|exact Hy].
    rewrite N_of_ascii_of_N in Hhigh by lia. lia.
Qed.

(** The delimiter is in the bytes of a payload only if it is in the
    payload as typed. *)
Lemma payload_bytes_delimiter_free (m : text) bs :
  utf8_encode m = Some bs →
  occurs_in EOF_text m = false →
  occurs_in EOF bs = false.
Proof.
  intros Henc Hocc. destruct (occurs_in EOF bs) eqn:Hb; [|done].
  rewrite <- Hocc. symmetry.
  apply (ascii_occurs_in_encoding EOF_text) with (bs := bs); [done| |done..].
  unfold EOF_text. repeat apply Forall_cons_2; try apply Forall_nil_2; lia.
Qed.

Lemma occurs_in_app_r {A} `{EqDecision A} (needle l r : list A) :
  occurs_in needle (l ++ r) = false → occurs_in needle r = false.
Proof.
  intros Hocc. destruct (occurs_in needle r) eqn:Hr; [|done].
  rewrite <- Hocc. symmetry. apply occurs_in_spec.
  apply occurs_in_spec in Hr as (l' & r' & ->).
  exists (l ++ l'), r'. by rewrite <- (assoc_L (++)).
Qed.

(** No delimiter starts inside a delimiter-free payload that a delimiter
    follows, whatever comes after. *)
Lemma delimiter_not_at_front_of (m rest : text) :
  m ≠ [] → occurs_in EOF_text m = false →
  ¬ EOF_text `prefix_of` (m ++ EOF_text ++ rest).
Proof.
  intros Hm Hocc [k Hk].
  destruct m as [|x1 [|x2 [|x3 [|x4 [|x5 m]]]]]; try done;
    by simplify_eq/=.
Qed.

(** [replace] passes over a delimiter-free payload, takes out the
    delimiter behind it and goes on behind that. *)
Lemma replace_frame_front (m rest : text) :
  occurs_in EOF_text m = false →
  replace EOF_text [] (m ++ EOF_text ++ rest) = m ++ replace EOF_text [] rest.
Proof.
  unfold replace. induction m as [|c m IH]; intros Hocc.
  - cbn [app]. unfold EOF_text at 2. cbn [app replace_from].
    rewrite bool_decide_eq_true_2; [done|].
    by apply (prefix_app_r EOF_text EOF_text rest).
  - cbn [app replace_from].
    rewrite bool_decide_eq_false_2.
    + f_equal. apply IH. cbn [occurs_in] in Hocc.
      by apply orb_false_elim in Hocc as [_ ?].
    + by apply (delimiter_not_at_front_of (c :: m)).
Qed.

Lemma replace_frames (ms : list text) :
  Forall (λ m, occurs_in EOF_text m = false) ms →
  replace EOF_text [] (concat ((λ m, m ++ EOF_text) <$> ms)) = concat ms.
Proof.
  induction 1 as [|m ms Hm _ IH]; [done|].
  rewrite fmap_cons. cbn [concat]. rewrite <- (assoc_L (++)).
  rewrite replace_frame_front by done. by rewrite IH.
Qed.

(** X10 — the client does not keep frames apart either: when several
    frames reach it in one [recv], [read] takes every delimiter out and
    shows what is left as one line, the payloads one behind the other with
    nothing in between. *)
Theorem frames_in_one_recv_are_one_line (ms : list text) msg win :
  ms ≠ [] →
  Forall (λ m, occurs_in EOF_text m = false) ms →
  utf8_encode (concat ((λ m, m ++ EOF_text) <$> ms)) = Some msg →
  read_turn (Received msg) win =
    (mkWindow (msg_box win) (msg_display win ++ concat ms ++ newline)
              (running win),
     true).
Proof.
  intros Hnil Hms Henc.
  pose proof (utf8_decode_encode _ _ Henc) as Hdec.
  assert (msg ≠ []) as Hmsg.
  { intros ->. cbn in Hdec. simplify_eq.
    destruct ms as [|m ms]; [done|]. by destruct m. }
  unfold read_turn. destruct msg as [|b msg]; [done|].
  rewrite Hdec. by rewrite replace_frames.
Qed.

(** X11 — once sent, a message is not sent again: [send_message] empties
    the entry box when [send] has returned, so that calling it again sends
    nothing and changes nothing.  Had [send] raised, the window would be as
    it was, the text still in the box to be sent again. *)
Theorem message_is_sent_once win win' msg :
  send_message false win = (win', Some msg) →
  msg_box win' = [] ∧
  (∀ again, send_message again win' = (win', None)) ∧
  send_message true win = (win, Some msg).
Proof.
  unfold send_message. intros Hsend.
  case_decide as Hbox; [done|].
  destruct (utf8_encode (msg_box win ++ EOF_text)) as [msg'|]; [|done].
  simplify_eq. split_and!; [done| |done].
  intros again. cbn [msg_box]. by rewrite decide_True.
Qed.

(** The bytes of the two characters between address and message. *)
Lemma utf8_encode_colon : utf8_encode (T ": ") = Some (B ": ").
Proof. reflexivity. Qed.

Lemma utf8_encode_EOF : utf8_encode EOF_text = Some EOF.
Proof. reflexivity. Qed.

(** X12 — from one window to the others: a message typed into one client
    and sent is read by the server when the chunks it arrives in are all
    there for one call of [readAll] (no would-block between them); its
    broadcast, run on its own and with [getpeername] answering on every
    recipient whose send fails, sends every other client one frame; a
    client whose socket takes the bytes receives that frame, which its
    [read] shows as the line [<address>: <message>]. *)
Theorem typed_message_is_shown_to_the_others
    (message name : text) msg display run chunks rest sender add peername w n :
  message ≠ [] →
  utf8_encode (message ++ EOF_text) = Some msg →
  utf8_encode name = Some peername →
  occurs_in EOF_text (name ++ T ": " ++ message) = false →
  Forall (λ c, c ≠ []) chunks →
  concat chunks = msg →
  sender ∉ closed w →
  inq w !! sender = Some ((Data <$> chunks) ++ rest) →
  NoDup (clients w) →
  sender ∈ clients w →
  getpeername sender w = inr peername →
  Forall (λ c, dropped w sender c → can_log w c = true) (clients w) →
  length (clients w) ≤ n →
  send_message false (mkWindow message display run) =
    (mkWindow [] (display ++ T "You: " ++ message ++ newline) run, Some msg) ∧
  ∃ w1 w2 calls frame,
    segment (HandleLoop sender add true) w =
      (w1, [Broadcast msg sender], Yielded (HandleLoop sender add true)) ∧
    alone n (Broadcast msg sender) w1 = (w2, [], Finished) ∧
    sent w2 = sent w ++ calls ∧
    (∀ c, c ∈ clients w → c ≠ sender → send_outcome w c = None →
       received c calls = [frame]) ∧
    ∀ win,
      read_turn (Received frame) win =
        (mkWindow (msg_box win)
                  (msg_display win ++ name ++ T ": " ++ message ++ newline)
                  (running win),
         true).
Proof.
  intros Hne Hmsg Hname Hocc Hch Hcat Hopen Hq Hnd Hs Hpn Hlog Hn.
  assert (occurs_in EOF_text message = false) as Hocc'.
  { apply (occurs_in_app_r _ (name ++ T ": ")). by rewrite <- (assoc_L (++)). }
  assert (∃ p, utf8_encode message = Some p ∧ msg = p ++ EOF) as (p & Hp & ->).
  { rewrite utf8_encode_app, utf8_encode_EOF in Hmsg.
    destruct (utf8_encode message) as [p|]; [|done].
    exists p. by simplify_eq/=. }
  split.
  { unfold send_message. cbn [msg_box msg_display running].
    rewrite decide_False by done. by rewrite Hmsg. }
  pose proof (payload_bytes_delimiter_free _ _ Hp Hocc') as Hfree.
  assert (chunks ≠ []) as Hnil.
  { intros ->. simpl in Hcat. by destruct p. }
  assert (p ++ EOF ≠ []) as Hdata by (by destruct p).
  pose proof (readAll_loop_frame p Hfree (weight (Data <$> chunks)) chunks []
                rest (le_n _) Hch Hnil Hcat) as Hr.
  destruct (handle_then_broadcast sender add peername w n _ _ _ _
              Hopen Hq Hr Hdata Hnd Hs Hpn Hlog Hn)
    as (w1 & w2 & calls & Hseg & Hal & Hsent & Hcalls & _).
  exists w1, w2, calls, (peername ++ B ": " ++ p ++ EOF).
  split_and!; [done..| |].
  - intros c Hc Hcs Hout.
    destruct (broadcast_calls _ sender w calls Hnd Hcalls) as (_ & _ & Hall).
    by apply Hall.
  - intros win.
    assert (utf8_encode ((name ++ T ": " ++ message) ++ EOF_text) =
            Some (peername ++ B ": " ++ p ++ EOF)) as Hframe.
    { rewrite <- !(assoc_L (++)).
      rewrite utf8_encode_app, Hname. cbn [mbind option_bind].
      rewrite utf8_encode_app, utf8_encode_colon. cbn [mbind option_bind].
      by rewrite Hmsg. }
    pose proof (utf8_decode_encode _ _ Hframe) as Hdec.
    unfold read_turn.
    destruct (peername ++ B ": " ++ p ++ EOF) as [|b frame] eqn:Hfr.
    { by destruct peername. }
    rewrite Hdec, replace_delimiter by done.
    by rewrite <- !(assoc_L (++)).
Qed.

(** X13 — [read] shows one line for each [recv] that returns bytes, in
    the order they arrive, until the server closes the connection: it then
    sets [running] and shows nothing of what might come after. *)
Theorem read_shows_frames_until_close (ms : list text) msgs later win :
  running win = false →
  Forall (λ m, occurs_in EOF_text m = false) ms →
  Forall2 (λ m msg, utf8_encode (m ++ EOF_text) = Some msg) ms msgs →
  read ((Received <$> msgs) ++ Received [] :: later) win =
    mkWindow (msg_box win)
             (msg_display win ++ concat ((λ m, m ++ newline) <$> ms))
             true.
Proof.
  intros Hrun Hms Hall. revert win Hrun.
  induction Hall as [|m msg ms msgs Henc _ IH]; intros win Hrun.
  - simpl. rewrite Hrun. by rewrite (right_id_L [] (++)).
  - apply Forall_cons in Hms as [Hm Hms].
    pose proof (utf8_decode_encode _ _ Henc) as Hdec.
    assert (msg ≠ []) as Hmsg.
    { intros ->. cbn in Hdec. simplify_eq. by destruct m. }
    rewrite fmap_cons. cbn [app read]. rewrite Hrun.
    unfold read_turn. destruct msg as [|b msg]; [done|].
    rewrite Hdec, replace_delimiter by done.
    rewrite IH by done. cbn [msg_box msg_display].
    rewrite fmap_cons. cbn [concat]. by rewrite <- !(assoc_L (++)).
Qed.

(** ** The test client *)

(** One turn of the loop of the test client. *)
Lemma test_loop_turn i outcomes run :
  test_loop i outcomes run =
  if decide (i < 10) then
    match default None (head outcomes) with
    | None =>
        test_loop (S i) (tail outcomes)
          (mkTestRun (tr_calls run ++ [(test_message i, None)])
                     (S (tr_readers run)) (tr_printed run) (tr_closed run))
    | Some e =>
        if decide (e = BlockingIOError) then
          test_loop (S i) (tail outcomes)
            (mkTestRun (tr_calls run ++ [(test_message i, Some e)])
                       (tr_readers run) (tr_printed run ++ [LogRetrying])
                       (tr_closed run))
        else
          mkTestRun (tr_calls run ++ [(test_message i, Some e)])
                    (tr_readers run) (tr_printed run ++ [LogTestError e])
                    (tr_closed run)
    end
  else run.
Proof.
  rewrite test_loop_equation_1.
  destruct (decide (i < 10)) as [Hi|Hi]; [|done].
  rewrite test_loop_clause_1_equation_1.
  by destruct (default None (head outcomes)) as [[]|].
Qed.

Lemma test_loop_calls d :
  ∀ i outcomes run,
    10 - i = d →
    ∃ k,
      k ≤ 10 - i ∧
      tr_calls (test_loop i outcomes run) =
        tr_calls run ++
        ((λ j, (test_message (i + j), outcome_of outcomes j)) <$> seq 0 k) ∧
      (∀ j, S j < k → hard_failure (outcome_of outcomes j) = false) ∧
      (k = 10 - i ∨
       (0 < k ∧ hard_failure (outcome_of outcomes (k - 1)) = true)) ∧
      tr_readers (test_loop i outcomes run) =
        tr_readers run +
        length (filter (λ j, outcome_of outcomes j = None) (seq 0 k)) ∧
      tr_closed (test_loop i outcomes run) = tr_closed run.
Proof.
  induction d as [|d IH]; intros i outcomes run Hd; rewrite test_loop_turn.
  { rewrite decide_False by lia. exists 0. simpl.
    rewrite (right_id_L [] (++)). split_and!; [lia|done|lia|lia|lia|done]. }
  rewrite decide_True by lia.
  assert (default None (head outcomes) = outcome_of outcomes 0) as Hhead.
  { unfold outcome_of. by destruct outcomes. }
  assert (∀ j, outcome_of (tail outcomes) j = outcome_of outcomes (S j)) as Htail.
  { intros j. unfold outcome_of. by rewrite lookup_tail. }
  assert (∀ run' readers,
            tr_calls run' =
              tr_calls run ++ [(test_message i, outcome_of outcomes 0)] →
            hard_failure (outcome_of outcomes 0) = false →
            tr_readers run' = tr_readers run + readers →
            readers = (if decide (outcome_of outcomes 0 = None) then 1 else 0) →
            tr_closed run' = tr_closed run →
            ∃ k,
              k ≤ 10 - i ∧
              tr_calls (test_loop (S i) (tail outcomes) run') =
                tr_calls run ++
                ((λ j, (test_message (i + j), outcome_of outcomes j))
                   <$> seq 0 k) ∧
              (∀ j, S j < k → hard_failure (outcome_of outcomes j) = false) ∧
              (k = 10 - i ∨
               (0 < k ∧ hard_failure (outcome_of outcomes (k - 1)) = true)) ∧
              tr_readers (test_loop (S i) (tail outcomes) run') =
                tr_readers run +
                length (filter (λ j, outcome_of outcomes j = None) (seq 0 k)) ∧
              tr_closed (test_loop (S i) (tail outcomes) run') = tr_closed run)
    as Hgo.
  { intros run' readers Hcalls Hsoft Hreaders Hcount Hclosed.
    destruct (IH (S i) (tail outcomes) run') as (k & Hk & Hc & Hs & Hl & Hr & Hcl);
      [lia|].
    exists (S k). split_and!.
    - lia.
    - rewrite Hc, Hcalls, <- (assoc_L (++)). f_equal.
      cbn [seq fmap list_fmap app]. rewrite Nat.add_0_r. f_equal.
      rewrite <- fmap_S_seq, <- list_fmap_compose.
      apply list_fmap_ext. intros _ j _. simpl.
      by rewrite Htail, Nat.add_succ_r.
    - intros [|j] Hj; [done|]. rewrite <- Htail. apply Hs. lia.
    - destruct Hl as [->|[Hpos Hhard]]; [left; lia|right].
      split; [lia|]. rewrite Htail in Hhard.
      replace (S k - 1) with (S (k - 1)) by lia. done.
    - rewrite Hr, Hreaders, Hcount. cbn [seq].
      rewrite <- fmap_S_seq.
      assert (length (filter (λ j, outcome_of (tail outcomes) j = None) (seq 0 k)) =
              length (filter (λ j, outcome_of outcomes j = None) (S <$> seq 0 k)))
        as ->.
      { generalize (seq 0 k). intros l. induction l as [|x l IHl]; [done|].
        rewrite fmap_cons, !filter_cons, Htail.
        destruct (decide (outcome_of outcomes (S x) = None)); simpl; by rewrite IHl. }
      rewrite filter_cons. destruct (decide (outcome_of outcomes 0 = None)); simpl; lia.
    - by rewrite Hcl. }
  rewrite Hhead. destruct (outcome_of outcomes 0) as [e|] eqn:Ho.
  - destruct (decide (e = BlockingIOError)) as [->|He].
    + eapply (Hgo _ 0); [done|done|simpl; by rewrite Nat.add_0_r|done|done].
    + exists 1. cbn [seq fmap list_fmap tr_calls tr_readers tr_closed].
      rewrite Nat.add_0_r, Ho. split_and!.
      * lia.
      * done.
      * intros j Hj. lia.
      * right. split; [lia|]. simpl. rewrite Ho. by destruct e.
      * rewrite filter_cons, Ho. rewrite decide_False by done. simpl. lia.
      * done.
  - eapply (Hgo _ 1); [done|done|simpl; by rewrite Nat.add_1_r|done|done].
Qed.

(** X14 — the test client sends each number once and retries nothing: the
    calls of [sendall] carry [Message no 0<EOF>], [Message no 1<EOF>], ... in
    this order, ten of them unless a call fails with something other than a
    would-block, which is the last call.  A call that would block is not
    repeated: the next call carries the next number.  A [read_data] task is
    created for each call that returned, and the socket is closed at the
    end, whatever happened. *)
Theorem test_client_sends_each_number_once (outcomes : list (option exn)) :
  ∃ k,
    k ≤ 10 ∧
    tr_calls (test_main outcomes) =
      (λ j, (test_message j, outcome_of outcomes j)) <$> seq 0 k ∧
    (∀ j, S j < k → hard_failure (outcome_of outcomes j) = false) ∧
    (k = 10 ∨ (0 < k ∧ hard_failure (outcome_of outcomes (k - 1)) = true)) ∧
    tr_readers (test_main outcomes) =
      length (filter (λ j, outcome_of outcomes j = None) (seq 0 k)) ∧
    tr_closed (test_main outcomes) = true.
Proof.
  destruct (test_loop_calls 10 0 outcomes (mkTestRun [] 0 [] false) eq_refl)
    as (k & Hk & Hc & Hs & Hl & Hr & _).
  exists k. unfold test_main. cbn [tr_calls tr_readers tr_closed].
  split_and!; [lia|done|done|done|done|done].
Qed.

(** The payload of a test message holds no delimiter. *)
Lemma test_message_payload i :
  i < 10 → occurs_in EOF (B "Message no " ++ B (pretty i)) = false.
Proof.
  intros Hi. do 10 (destruct i as [|i]; [by vm_compute|]). lia.
Qed.

(** X15 — what the test client sends is what the server takes for one
    message: each [Message no i<EOF>], wherever the chunk boundaries fall,
    as long as its chunks are all there for one call of [readAll] (no
    would-block between them), is returned whole by that call and handed
    to one broadcast. *)
Theorem test_message_is_one_message i chunks rest s add w :
  i < 10 →
  Forall (λ c, c ≠ []) chunks →
  concat chunks = test_message i →
  s ∉ closed w →
  inq w !! s = Some ((Data <$> chunks) ++ rest) →
  readAll s w =
    (ReadResult (Some (test_message i)) true None,
     set_inq (<[s := rest]> (inq w)) w) ∧
  segment (HandleLoop s add true) w =
    (print (LogReceived add (test_message i))
           (set_inq (<[s := rest]> (inq w)) w),
     [Broadcast (test_message i) s],
     Yielded (HandleLoop s add true)).
Proof.
  intros Hi Hne Hcat Hopen Hq.
  pose proof (test_message_payload i Hi) as Hfree.
  unfold test_message in *. rewrite (assoc_L (++)) in Hcat |- *.
  assert (chunks ≠ []) as Hnil.
  { intros ->. simpl in Hcat. done. }
  pose proof (readAll_loop_frame _ Hfree (weight (Data <$> chunks)) chunks []
                rest (le_n _) Hne Hnil Hcat) as Hr.
  split.
  - by rewrite (readAll_queue _ _ _ _ _ Hopen Hq Hr).
  - apply (handle_loop_data s add w _ _ _ _ Hopen Hq Hr). done.
Qed.

(** ** One round of the event loop *)









(** ** A frame on its way through the server *)




(** * The statements at concrete inputs *)

(** C1 — the code where the claim fails.  Bob's peer has gone: [sendall] on
    his socket raises [BrokenPipeError], and [getpeername], which the
    [except] branch calls to print its line, raises [OSError] in turn.
    Nothing catches that: the broadcast ends there, bob stays in
    [clients], and carol, behind bob in the snapshot, is never sent the
    message. *)
Lemma failed_recipient_cuts_the_broadcast_short :
  let w := mkWorld [alice; bob; carol] ∅ {[bob := [Some BrokenPipeError]]}
             (delete bob peers) ∅ [] [] [] in
  ∃ w',
    alone 3 (Broadcast (B "hello<EOF>") alice) w = (w', [], Raised OSError) ∧
    sent w' =
      [SendCall bob (B "('10.0.0.1', 50001): hello<EOF>")
                (Some BrokenPipeError)] ∧
    calls_to carol (sent w') = [] ∧
    clients w' = [alice; bob; carol].
Proof. eexists. split_and!; reflexivity. Qed.

(** C7 — the code where the claim fails.  [sendall] on bob's socket raises
    [ConnectionResetError]; the [except Exception] branch calls
    [getpeername] on the socket to print its line, and that raises
    [OSError].  The whole broadcast ends with this exception: bob is not
    taken out of [clients], nothing is printed, and carol is not sent the
    message. *)
Lemma send_failure_ends_the_broadcast :
  let w := mkWorld [alice; bob; carol] ∅ {[bob := [Some ConnectionResetError]]}
             (delete bob peers) ∅ [] [] [] in
  ∃ w',
    segment (Broadcast (B "hello<EOF>") alice) w = (w', [], Raised OSError) ∧
    clients w' = [alice; bob; carol] ∧
    stdout w' = [] ∧
    calls_to carol (sent w') = [].
Proof. eexists. split_and!; reflexivity. Qed.



(** C6 — the code where the claim fails.  [hello<EOF>] arrives as [hel],
    then nothing for a moment, then [lo<EOF>].  The first call of [readAll]
    returns [None] and its [hel] is gone; the second returns [lo<EOF>],
    which is what gets relayed.  Read in one piece, the frame is relayed
    whole. *)
Lemma would_block_between_chunks_loses_bytes :
  let chunked :=
    room {[alice := [Data (B "hel"); RecvRaises BlockingIOError;
                     Data (B "lo<EOF>")]]} ∅ in
  let whole := room {[alice := [Data (B "hello<EOF>")]]} ∅ in
  (readAll alice chunked).1 = ReadResult None true None ∧
  (readAll alice (readAll alice chunked).2).1 =
    ReadResult (Some (B "lo<EOF>")) true None ∧
  messages_of (alone 1 (HandleLoop alice (B "a") true) chunked).1.2 =
    [B "lo<EOF>"] ∧
  messages_of (alone 1 (HandleLoop alice (B "a") true) whole).1.2 =
    [B "hello<EOF>"].
Proof. split_and!; reflexivity. Qed.

(** C4 — the code where the claim fails.  [sendall] on bob's socket fails
    while the socket is still connected, so that alice's broadcast prints
    its line and takes bob out of [clients].  When bob's own handler then
    leaves its loop, its [clients.remove] raises [ValueError]: the
    coroutine ends there and the socket is not closed. *)
Lemma second_remove_raises :
  let w := room ∅ {[bob := [Some OSError]]} in
  ∃ w1 w2,
    alone 3 (Broadcast (B "hello<EOF>") alice) w = (w1, [], Finished) ∧
    clients w1 = [alice; carol] ∧
    list_remove bob (clients w1) = None ∧
    segment (HandleLoop bob (B "b") false) w1 = (w2, [], Raised ValueError) ∧
    clients w2 = [alice; carol] ∧
    closed w2 = ∅.
Proof. do 2 eexists. split_and!; reflexivity. Qed.

(** C8 with alice alone in [clients]. *)
Lemma broadcast_below_two_is_noop_witness :
  let w := mkWorld [alice] ∅ ∅ peers ∅ [] [] [] in
  segment (Broadcast (B "hello<EOF>") alice) w = (w, [], Finished) ∧
  alone 1 (Broadcast (B "hello<EOF>") alice) w = (w, [], Finished).
Proof.
  apply (broadcast_below_two_is_noop (B "hello<EOF>") alice _ 1).
  compute_done.
Defined.


(** C2 as stated fails: the frames of [a] and [b] read by one [recv] give
    one message, [a<EOF>b<EOF>], not the two messages [a] and [b]; bob is
    sent them as one frame. *)
Lemma two_frames_in_one_read_are_not_split :
  let w := room {[alice := [Data (B "a<EOF>b<EOF>")]]} ∅ in
  ∃ w1 spawned out w2,
    segment (HandleLoop alice (B "a") true) w = (w1, spawned, out) ∧
    messages_of spawned = [B "a<EOF>b<EOF>"] ∧
    messages_of spawned ≠ [B "a"; B "b"] ∧
    length (messages_of spawned) ≠ 2 ∧
    alone 3 (Broadcast (B "a<EOF>b<EOF>") alice) w1 = (w2, [], Finished) ∧
    received bob (sent w2) = [B "('10.0.0.1', 50001): a<EOF>b<EOF>"].
Proof.
  do 4 eexists. split_and!; try reflexivity.
  - vm_compute. intros [=].
  - vm_compute. intros [=].
Qed.

(** C2 as amended, at the frames of [a] and [b]. *)
Lemma concatenated_frames_are_one_message_witness :
  let w := room {[alice := [Data (B "a<EOF>b<EOF>")]]} ∅ in
  readAll alice w =
    (ReadResult (Some (B "a<EOF>b<EOF>")) true None,
     set_inq (<[alice := []]> (inq w)) w) ∧
  ∃ w1,
    segment (HandleLoop alice (B "a") true) w =
      (w1, [Broadcast (B "a<EOF>b<EOF>") alice],
       Yielded (HandleLoop alice (B "a") true)).
Proof.
  intros w.
  apply (concatenated_frames_are_one_message [B "a"; B "b"] [] alice (B "a") w);
    [done|compute_done|compute_done|reflexivity].
Defined.



(** C9 at [hello]. *)
Lemma framing_round_trip_witness :
  ∃ msg,
    utf8_encode (T "hello" ++ EOF_text) = Some msg ∧
    replace EOF_text [] <$> utf8_decode msg = Some (T "hello").
Proof.
  destruct (framing_round_trip (T "hello")) as (msg & Henc & Hdec & _);
    [compute_done|reflexivity|].
  by exists msg.
Defined.

(** * The event loop at work *)

(** Three clients connect and the first sends [hello<EOF>]: the accept
    loop takes the three connections in one go, each handler registers its
    socket, and the broadcast created by the first handler runs once the
    other two have registered.  The second and the third client are sent
    the frame with the address of the first; the first is sent nothing. *)
Example three_clients_one_message :
  let w := mkWorld [] {[alice := [Data (B "hello<EOF>")]]} ∅ peers ∅
             [Accepted alice (B "a"); Accepted bob (B "b");
              Accepted carol (B "c")] [] [] in
  let l := steps 6 (mkLoop w [Main] true) in
  clients (world l) = [alice; bob; carol] ∧
  sent (world l) =
    [SendCall bob (B "('10.0.0.1', 50001): hello<EOF>") None;
     SendCall carol (B "('10.0.0.1', 50001): hello<EOF>") None] ∧
  ready l = [HandleLoop alice (B "a") true; HandleLoop bob (B "b") true;
             HandleLoop carol (B "c") true; Main].
Proof. split_and!; reflexivity. Qed.

(** The same end of a broadcast between two of its turns.  A broadcast is
    suspended because carol's socket would block; before it is resumed,
    bob's handler, which had seen its peer close, takes bob out of
    [clients] and closes the socket.  Resumed, the broadcast calls
    [sendall] on the closed socket, and the [getpeername] of its [except]
    branch raises in turn: the broadcast ends there, and the fourth client,
    behind bob in the snapshot, is never sent the message. *)
Example suspended_broadcast_meets_closed_socket :
  let dave : sock := 4 in
  let w := mkWorld [alice; carol; bob; dave] ∅
             {[carol := [Some BlockingIOError]]}
             (<[dave := B "('10.0.0.4', 50004)"]> peers) ∅ [] [] [] in
  let message := B "('10.0.0.1', 50001): hello<EOF>" in
  ∃ w1 w2 w3,
    segment (Broadcast (B "hello<EOF>") alice) w =
      (w1, [], Yielded (BroadcastLoop message alice [bob; dave])) ∧
    segment (HandleLoop bob (B "b") false) w1 = (w2, [], Finished) ∧
    segment (BroadcastLoop message alice [bob; dave]) w2 =
      (w3, [], Raised OSError) ∧
    clients w3 = [alice; carol; dave] ∧
    calls_to dave (sent w3) = [].
Proof. do 3 eexists. split_and!; reflexivity. Qed.

(** * The further properties at concrete inputs *)

(** X1 at three connections waiting to be accepted, after ten turns. *)
Lemma clients_never_hold_a_socket_twice_witness :
  NoDup (clients (world (steps 10
    (mkLoop (mkWorld [] {[alice := [Data (B "hello<EOF>")]]} ∅ peers ∅
               [Accepted alice (B "a"); Accepted bob (B "b");
                Accepted carol (B "c")] [] [])
            [Main] true)))).
Proof.
  apply (clients_never_hold_a_socket_twice 10). unfold fresh_sockets.
  compute_done.
Defined.

(** X2 with [hel] read and nothing behind it. *)
Lemma would_block_discards_what_was_read_witness :
  let w := room {[alice := [Data (B "hel")]]} ∅ in
  readAll alice w =
    (ReadResult None true None, set_inq (<[alice := []]> (inq w)) w) ∧
  segment (HandleLoop alice (B "a") true) w =
    (set_inq (<[alice := []]> (inq w)) w, [],
     Yielded (HandleLoop alice (B "a") true)).
Proof.
  intros w.
  apply (would_block_discards_what_was_read [B "hel"] [] alice (B "a") w);
    [compute_done|reflexivity|by left|compute_done|reflexivity].
Defined.


(** X4 with two frames, the second in two chunks. *)
Lemma frames_get_a_broadcast_each_witness :
  let w := room {[alice := [Data (B "one<EOF>"); Data (B "tw");
                           Data (B "o<EOF>")]]} ∅ in
  ∃ w' spawned,
    alone 1 (HandleLoop alice (B "a") true) w =
      (w', spawned, Yielded (HandleLoop alice (B "a") true)) ∧
    messages_of spawned = [B "one<EOF>"; B "two<EOF>"].
Proof.
  intros w.
  destruct (frames_get_a_broadcast_each
              [B "one"; B "two"] [[B "one<EOF>"]; [B "tw"; B "o<EOF>"]] []
              alice (B "a") w)
    as (w' & spawned & Hal & _ & Hm & _);
    [compute_done| |done|compute_done|reflexivity|].
  { repeat apply Forall2_cons_2; try apply Forall2_nil_2;
      (split; [compute_done|reflexivity]). }
  by exists w', spawned.
Defined.


(** X6 with bob, whom a failed send has taken out of [clients]. *)
Lemma teardown_of_removed_socket_raises_witness :
  let w := mkWorld [alice; carol] ∅ ∅ peers ∅ [] [] [] in
  ∃ w',
    segment (HandleLoop bob (B "b") false) w = (w', [], Raised ValueError) ∧
    clients w' = [alice; carol] ∧
    closed w' = ∅.
Proof.
  intros w.
  destruct (teardown_of_removed_socket_raises bob (B "b") w)
    as (w' & Hseg & Hcl & Hclosed & _); [compute_done|].
  by exists w'.
Defined.

(** X7 with two connections waiting. *)
Lemma accept_loop_takes_all_pending_witness :
  let w := mkWorld [] ∅ ∅ peers ∅
             [Accepted alice (B "a"); Accepted bob (B "b")] [] [] in
  ∃ w',
    step (mkLoop w [Main] true) =
      mkLoop w' [HandleClient alice (B "a"); HandleClient bob (B "b"); Main]
             true ∧
    backlog w' = [] ∧
    clients w' = [].
Proof.
  intros w.
  destruct (accept_loop_takes_all_pending
              [(alice, B "a"); (bob, B "b")] [] w [])
    as (w' & _ & Hstep & Hb & Hc & _); [by left|reflexivity|].
  by exists w'.
Defined.

(** X8 with a broadcast that stops at bob, whose socket would block. *)
Lemma broadcast_never_echoes_witness :
  let w := room ∅ {[bob := [Some BlockingIOError]]} in
  let w' := (alone 0 (Broadcast (B "hi") alice) w).1.1 in
  ∃ calls,
    sent w' = calls ∧
    (sc_to <$> calls) `prefix_of` [bob; carol] ∧
    calls_to alice calls = [] ∧
    closed w' = ∅.
Proof.
  intros w w'.
  destruct (broadcast_never_echoes 0 (B "hi") alice w w'
              (alone 0 (Broadcast (B "hi") alice) w).1.2
              (alone 0 (Broadcast (B "hi") alice) w).2)
    as (_ & calls & Hsent & Hpre & Hnone & _ & _ & _ & Hclosed & _);
    [reflexivity|].
  by exists calls.
Defined.


(** X10 with two frames in one [recv]. *)
Lemma frames_in_one_recv_are_one_line_witness :
  read_turn (Received (B "a<EOF>b<EOF>")) (mkWindow [] [] false) =
    (mkWindow [] ([] ++ concat [T "a"; T "b"] ++ newline) false, true).
Proof.
  apply (frames_in_one_recv_are_one_line
           [T "a"; T "b"] (B "a<EOF>b<EOF>") (mkWindow [] [] false));
    [done|compute_done|reflexivity].
Defined.

(** X11 with [hi] in the entry box. *)
Lemma message_is_sent_once_witness :
  let win := mkWindow (T "hi") [] false in
  let win' := mkWindow [] ([] ++ T "You: " ++ T "hi" ++ newline) false in
  msg_box win' = [] ∧
  (∀ again, send_message again win' = (win', None)) ∧
  send_message true win = (win, Some (B "hi<EOF>")).
Proof.
  intros win win'.
  apply (message_is_sent_once win win' (B "hi<EOF>")). reflexivity.
Defined.

(** X12 with [hi] typed at alice's, its frame cut in two on the way. *)
Lemma typed_message_is_shown_to_the_others_witness :
  let w := room {[alice := [Data (B "hi<"); Data (B "EOF>")]]} ∅ in
  send_message false (mkWindow (T "hi") [] false) =
    (mkWindow [] ([] ++ T "You: " ++ T "hi" ++ newline) false,
     Some (B "hi<EOF>")) ∧
  ∃ w1 w2 calls frame,
    segment (HandleLoop alice (B "a") true) w =
      (w1, [Broadcast (B "hi<EOF>") alice],
       Yielded (HandleLoop alice (B "a") true)) ∧
    alone 3 (Broadcast (B "hi<EOF>") alice) w1 = (w2, [], Finished) ∧
    sent w2 = calls ∧
    received bob calls = [frame] ∧
    read_turn (Received frame) (mkWindow [] [] false) =
      (mkWindow [] ([] ++ T "('10.0.0.1', 50001)" ++ T ": " ++ T "hi" ++ newline)
                false,
       true).
Proof.
  intros w.
  destruct (typed_message_is_shown_to_the_others
              (T "hi") (T "('10.0.0.1', 50001)") (B "hi<EOF>") [] false
              [B "hi<"; B "EOF>"] [] alice (B "a") (B "('10.0.0.1', 50001)")
              w 3)
    as (Hsend & w1 & w2 & calls & frame & Hseg & Hal & Hsent & Hrecv & Hread);
    [done|reflexivity|reflexivity|reflexivity|compute_done|reflexivity|
     compute_done|reflexivity|compute_done|compute_done|reflexivity|
     compute_done|compute_done|].
  split; [done|]. exists w1, w2, calls, frame. split_and!; [done|done|done|..].
  - apply (Hrecv bob); [compute_done|done|reflexivity].
  - apply Hread.
Defined.

(** X13 with two frames, the close, and a frame that is never read. *)
Lemma read_shows_frames_until_close_witness :
  read [Received (B "a<EOF>"); Received (B "b<EOF>"); Received [];
        Received (B "c<EOF>")]
       (mkWindow [] [] false) =
    mkWindow [] ([] ++ concat [T "a" ++ newline; T "b" ++ newline]) true.
Proof.
  apply (read_shows_frames_until_close
           [T "a"; T "b"] [B "a<EOF>"; B "b<EOF>"] [Received (B "c<EOF>")]
           (mkWindow [] [] false));
    [reflexivity|compute_done|].
  repeat apply Forall2_cons_2; try apply Forall2_nil_2; reflexivity.
Defined.

(** X15 with message number 3. *)
Lemma test_message_is_one_message_witness :
  let w := room {[alice := [Data (B "Message no 3<EOF>")]]} ∅ in
  readAll alice w =
    (ReadResult (Some (test_message 3)) true None,
     set_inq (<[alice := []]> (inq w)) w) ∧
  segment (HandleLoop alice (B "a") true) w =
    (print (LogReceived (B "a") (test_message 3))
           (set_inq (<[alice := []]> (inq w)) w),
     [Broadcast (test_message 3) alice],
     Yielded (HandleLoop alice (B "a") true)).
Proof.
  intros w.
  apply (test_message_is_one_message 3 [B "Message no 3<EOF>"] [] alice (B "a") w);
    [lia|compute_done|reflexivity|compute_done|reflexivity].
Defined.

